(** * ytdl: a command-line playlist downloader

    A shallow embedding of the three scripts of the repository and the
    properties of the batch orchestrator, the item downloader, the
    directory helper and the playlist resolver wrapper.

    The newest script (the one with [--title-dir], [sanitize] and
    [estimated_items]) is embedded at top level; the two older scripts kept in
    [index.js] are embedded in [Module Rev1] and [Module Rev2] where they
    differ.  The third-party collaborators (ytpl, ytdl-core and
    sanitize-filename) are the fields of a [World] record; Node's [path]
    module, the file system and the limiter are small executable models. *)

From Stdlib Require Import ZArith QArith Qround Qabs Lia List String Ascii Bool DecimalString.
From stdpp Require Import base list gmap strings.
Import ListNotations.
Open Scope Z_scope.

(* ================================================================== *)
(** * JavaScript numbers produced by the command line

    [parseInt] yields an integer or [NaN]; the default of [--limit] is
    [Infinity]. *)

Module JsInt.

Inductive ival : Type :=
| INaN
| IPosInf
| INegInf
| IInt (z : Z).

Definition ineg (a : ival) : ival :=
  match a with
  | INaN => INaN
  | IPosInf => INegInf
  | INegInf => IPosInf
  | IInt z => IInt (- z)
  end.

(** [a + b] *)
Definition iadd (a b : ival) : ival :=
  match a, b with
  | INaN, _ | _, INaN => INaN
  | IPosInf, INegInf | INegInf, IPosInf => INaN
  | IPosInf, _ | _, IPosInf => IPosInf
  | INegInf, _ | _, INegInf => INegInf
  | IInt x, IInt y => IInt (x + y)
  end.

(** [a - b] *)
Definition isub (a b : ival) : ival := iadd a (ineg b).

(** [Math.min(a, b)] *)
Definition imin (a b : ival) : ival :=
  match a, b with
  | INaN, _ | _, INaN => INaN
  | INegInf, _ | _, INegInf => INegInf
  | IPosInf, y => y
  | x, IPosInf => x
  | IInt x, IInt y => IInt (Z.min x y)
  end.

(** Template-literal rendering of a number. *)
Definition ival_to_string (a : ival) : string :=
  match a with
  | INaN => "NaN"
  | IPosInf => "Infinity"
  | INegInf => "-Infinity"
  | IInt z => NilZero.string_of_int (Z.to_int z)
  end.

(** The index conversion of [Array.prototype.slice]: [ToIntegerOrInfinity]
    followed by the clamping of a relative index into [0 .. len]. *)
Definition relative_index (len : Z) (v : ival) : Z :=
  match v with
  | INaN => Z.min 0 len
  | INegInf => 0
  | IPosInf => len
  | IInt r => if r <? 0 then Z.max (len + r) 0 else Z.min r len
  end.

(** [l.slice(start, end)] *)
Definition slice {A : Type} (l : list A) (start end_ : ival) : list A :=
  let len := Z.of_nat (length l) in
  let k := relative_index len start in
  let final := relative_index len end_ in
  let count := Z.max (final - k) 0 in
  take (Z.to_nat count) (drop (Z.to_nat k) l).

End JsInt.
Export JsInt.

(* ================================================================== *)
(** * Errors, results and the resolver's data *)

(** The [code] property of a thrown or rejected value: absent, a number (the
    resolver wrapper's 400 and 404) or a string (Node's ['EEXIST'] and the
    like). *)
Inductive Code : Type :=
| CUndef
| CNum (n : Z)
| CStr (s : string).

(** A thrown or rejected value: [{ code, message }], possibly carrying the
    underlying error in its [err] property. *)
Inductive Err : Type :=
| MkErr (code : Code) (message : string)
| MkErrWith (code : Code) (message : string) (err : Err).

Definition code (e : Err) : Code :=
  match e with MkErr c _ | MkErrWith c _ _ => c end.

(** The number a string of decimal digits converts to, for the loose
    comparison of a string code with a number; the empty string converts to
    0.  Node's own codes are names such as [EACCES], which convert to [NaN];
    no other spelling of a number is recognised here. *)
Fixpoint digits_value (acc : Z) (s : string) : option Z :=
  match s with
  | EmptyString => Some acc
  | String c s' =>
      let n := Z.of_nat (nat_of_ascii c) in
      if (48 <=? n) && (n <=? 57) then digits_value (10 * acc + (n - 48)) s'
      else None
  end.

(** [c == n] *)
Definition code_loose_eq (c : Code) (n : Z) : bool :=
  match c with
  | CUndef => false
  | CNum m => m =? n
  | CStr s => match digits_value 0 s with Some m => m =? n | None => false end
  end.

(** [c === s] for a string literal [s] *)
Definition code_strict_eq (c : Code) (s : string) : bool :=
  match c with
  | CStr s' => String.eqb s' s
  | _ => false
  end.

(** A settled promise or a call that may throw. *)
Inductive Result (A : Type) : Type :=
| Ok (a : A)
| Fail (e : Err).
Arguments Ok {A} a.
Arguments Fail {A} e.

Record PlaylistItem : Type := {
  item_title : string;
  item_url : string;
}.

(** What the playlist resolver returns; [total_items] is the count field the
    two older scripts print, [estimated_items] the one the newest uses. *)
Record Playlist : Type := {
  playlist_title : string;
  total_items : ival;
  estimated_items : ival;
  items : list PlaylistItem;
}.

(** [info.videoDetails] of [ytdl.getBasicInfo] *)
Record VideoDetails : Type := {
  vd_title : string;
  video_url : string;
}.

(** The parsed command line ([cmObj]). *)
Record CmObj : Type := {
  link : string;
  output : string;
  concurrency : ival;
  limit : ival;
  offset : ival;
  titleDir : bool;
}.

(* ================================================================== *)
(** * JavaScript numbers of the progress events

    Byte counters and times are numbers that may be [NaN] or infinite; the
    finite ones are kept as exact rationals. *)

Module JsNum.

Inductive num : Type :=
| NaN
| PosInf
| NegInf
| Fin (q : Q).

Definition of_Z (z : Z) : num := Fin (inject_Z z).

Inductive sign : Type := SNeg | SZero | SPos.

Definition qsign (q : Q) : sign :=
  match (q ?= 0)%Q with
  | Lt => SNeg
  | Eq => SZero
  | Gt => SPos
  end.

Definition neg (a : num) : num :=
  match a with
  | NaN => NaN
  | PosInf => NegInf
  | NegInf => PosInf
  | Fin q => Fin (- q)
  end.

(** [a + b] *)
Definition add (a b : num) : num :=
  match a, b with
  | NaN, _ | _, NaN => NaN
  | PosInf, NegInf | NegInf, PosInf => NaN
  | PosInf, _ | _, PosInf => PosInf
  | NegInf, _ | _, NegInf => NegInf
  | Fin x, Fin y => Fin (Qred (x + y))
  end.

(** [a - b] *)
Definition sub (a b : num) : num := add a (neg b).

Definition sign_of (a : num) : sign :=
  match a with
  | NaN => SZero
  | PosInf => SPos
  | NegInf => SNeg
  | Fin q => qsign q
  end.

(** An infinity with the sign of the product; [NaN] when a factor is zero. *)
Definition inf_of_signs (s1 s2 : sign) : num :=
  match s1, s2 with
  | SZero, _ | _, SZero => NaN
  | SPos, SPos | SNeg, SNeg => PosInf
  | _, _ => NegInf
  end.

(** [a * b] *)
Definition mul (a b : num) : num :=
  match a, b with
  | NaN, _ | _, NaN => NaN
  | Fin x, Fin y => Fin (Qred (x * y))
  | _, _ => inf_of_signs (sign_of a) (sign_of b)
  end.

(** [a / b]: a finite value over zero is an infinity of its sign, zero over
    zero is [NaN], a finite value over an infinity is zero. *)
Definition div (a b : num) : num :=
  match a, b with
  | NaN, _ | _, NaN => NaN
  | Fin x, Fin y =>
      match qsign y with
      | SZero =>
          match qsign x with
          | SZero => NaN
          | SPos => PosInf
          | SNeg => NegInf
          end
      | _ => Fin (Qred (x / y))
      end
  | Fin _, _ => Fin 0
  | _, Fin y =>
      match qsign y with
      | SNeg => neg a
      | _ => a
      end
  | _, _ => NaN
  end.

Definition string_of_nat (n : nat) : string :=
  NilZero.string_of_uint (Nat.to_uint n).

(** [x.toFixed(2)], for magnitudes below [1e21]: the nearest multiple of
    one hundredth, the larger one on a tie, with the sign of [x] in front. *)
Definition toFixed2 (a : num) : string :=
  match a with
  | NaN => "NaN"
  | PosInf => "Infinity"
  | NegInf => "-Infinity"
  | Fin q =>
      let n := Z.to_nat (Qfloor (Qabs q * 100 + (1 # 2))) in
      let whole := Nat.div n 100 in
      let frac := Nat.modulo n 100 in
      ((match qsign q with SNeg => "-" | _ => "" end)
       ++ string_of_nat whole ++ "."
       ++ (if Nat.ltb frac 10 then "0" else "") ++ string_of_nat frac)%string
  end.

End JsNum.
Export JsNum.

(* ================================================================== *)
(** * Node's [path] module (POSIX) and a file system

    Path strings are split on ['/'].  A resolved directory ([path.resolve])
    is an absolute normalized path, kept as its list of segments; the root is
    the empty list. *)

Definition sep : ascii := "/"%char.

(** [s.split(sep)] *)
Fixpoint split (s : string) : list string :=
  match s with
  | EmptyString => [EmptyString]
  | String c s' =>
      if Ascii.eqb c sep then EmptyString :: split s'
      else match split s' with
           | [] => [String c EmptyString]
           | seg :: rest => String c seg :: rest
           end
  end.

(** [segs.join(sep)] *)
Fixpoint join_segments (segs : list string) : string :=
  match segs with
  | [] => ""
  | [seg] => seg
  | seg :: rest => seg ++ "/" ++ join_segments rest
  end.

(** [path.isAbsolute(p)] *)
Definition isAbsolute (p : string) : bool :=
  match p with
  | String c _ => Ascii.eqb c sep
  | EmptyString => false
  end.

Definition ends_with_sep (p : string) : bool :=
  match last (split p) with
  | Some EmptyString => negb (String.eqb p "")
  | _ => false
  end.

(** The segment walk of [path.normalize]: empty and ['.'] segments vanish,
    ['..'] removes the segment before it when there is one to remove. *)
Fixpoint normalize_segments (allowAboveRoot : bool) (acc segs : list string)
  : list string :=
  match segs with
  | [] => acc
  | seg :: rest =>
      if String.eqb seg "" || String.eqb seg "." then
        normalize_segments allowAboveRoot acc rest
      else if String.eqb seg ".." then
        match last acc with
        | Some prev =>
            if String.eqb prev ".." then
              normalize_segments allowAboveRoot (acc ++ [seg]) rest
            else normalize_segments allowAboveRoot (removelast acc) rest
        | None =>
            normalize_segments allowAboveRoot
              (if allowAboveRoot then [seg] else []) rest
        end
      else normalize_segments allowAboveRoot (acc ++ [seg]) rest
  end.

(** [path.normalize(p)] *)
Definition path_normalize (p : string) : string :=
  if String.eqb p "" then "."
  else
    let body := join_segments (normalize_segments (negb (isAbsolute p)) [] (split p)) in
    if String.eqb body "" then
      if isAbsolute p then "/" else if ends_with_sep p then "./" else "."
    else
      ((if isAbsolute p then "/" else "") ++ body
       ++ (if ends_with_sep p then "/" else ""))%string.

(** [path.join(a, b)] *)
Definition path_join (a b : string) : string :=
  if String.eqb a "" then path_normalize b
  else if String.eqb b "" then path_normalize a
  else path_normalize (a ++ "/" ++ b).

(** An absolute normalized directory. *)
Definition path : Type := list string.

Definition path_to_string (p : path) : string := ("/" ++ join_segments p)%string.

(** The accumulator of the directory walk: [''] or a resolved directory. *)
Definition dir_to_string (d : option path) : string :=
  match d with
  | None => ""
  | Some p => path_to_string p
  end.

(** One more segment below an absolute directory, normalized. *)
Definition resolve_segment (base : path) (child : string) : path :=
  if String.eqb child "" || String.eqb child "." then base
  else if String.eqb child ".." then removelast base
  else base ++ [child].

(** [path.resolve('.', parentDir, childDir)] for a [parentDir] that is ['']
    or already resolved, and a [childDir] free of separators. *)
Definition path_resolve3 (cwd : path) (parentDir : option path) (childDir : string)
  : path :=
  resolve_segment (default cwd parentDir) childDir.

(** [path.resolve(targetDir)] *)
Definition path_resolve (cwd : path) (targetDir : string) : path :=
  fold_left resolve_segment (split targetDir)
            (if isAbsolute targetDir then [] else cwd).

(** The file system: the directories and other files that exist, the working
    directory, and the error a platform raises for [mkdir] at some paths
    whatever is there (permissions, ['EISDIR'] on the root, read-only
    volumes). *)
Record FS : Type := {
  dirs : gset path;
  files : gset path;
  faults : gmap path string;
  cwd : path;
}.

Definition fs_error (c : string) (p : path) : Err :=
  MkErr (CStr c) (c ++ ": mkdir '" ++ path_to_string p ++ "'").

Definition exists_dir (fs : FS) (p : path) : bool :=
  bool_decide (p = [] ∨ p ∈ dirs fs).

Definition exists_any (fs : FS) (p : path) : bool :=
  exists_dir fs p || bool_decide (p ∈ files fs).

(** [fs.mkdirSync(p)]: the new file system, and the error thrown if any. *)
Definition mkdirSync (fs : FS) (p : path) : FS * option Err :=
  match faults fs !! p with
  | Some c => (fs, Some (fs_error c p))
  | None =>
      if exists_any fs p then (fs, Some (fs_error "EEXIST" p))
      else if bool_decide (removelast p ∈ files fs) then
        (fs, Some (fs_error "ENOTDIR" p))
      else if negb (exists_dir fs (removelast p)) then
        (fs, Some (fs_error "ENOENT" p))
      else
        ({| dirs := {[ p ]} ∪ dirs fs; files := files fs;
            faults := faults fs; cwd := cwd fs |}, None)
  end.


(** The codes the directory walk lets pass on a directory that is not the
    target. *)
Definition swallowed (c : Code) : Prop :=
  c = CStr "EACCES" \/ c = CStr "EPERM" \/ c = CStr "EISDIR".

(* ================================================================== *)
(** * [mkDirByPathSync] *)

(** The callback of the [reduce]: try to create [curDir]; the [catch] block
    decides which errors are rethrown. *)
Definition mkdir_callback (fs : FS) (targetDir : string)
    (parentDir : option path) (childDir : string) : FS * Result path :=
  let curDir := path_resolve3 (cwd fs) parentDir childDir in
  match mkdirSync fs curDir with
  | (fs', None) => (fs', Ok curDir)
  | (fs', Some err) =>
      if code_strict_eq (code err) "EEXIST" then (fs', Ok curDir)
      else if code_strict_eq (code err) "ENOENT" then
        (fs', Fail (MkErr CUndef
                      ("EACCES: permission denied, mkdir '"
                       ++ dir_to_string parentDir ++ "'")))
      else
        let caughtErr :=
          existsb (code_strict_eq (code err)) ["EACCES"; "EPERM"; "EISDIR"]%string in
        if negb caughtErr
           || (caughtErr && bool_decide (curDir = path_resolve (cwd fs) targetDir))
        then (fs', Fail err)
        else (fs', Ok curDir)
  end.

Fixpoint mkdir_reduce (fs : FS) (targetDir : string) (parentDir : option path)
    (segs : list string) : FS * Result (option path) :=
  match segs with
  | [] => (fs, Ok parentDir)
  | childDir :: rest =>
      match mkdir_callback fs targetDir parentDir childDir with
      | (fs', Ok curDir) => mkdir_reduce fs' targetDir (Some curDir) rest
      | (fs', Fail e) => (fs', Fail e)
      end
  end.

Definition mkDirByPathSync (fs : FS) (targetDir : string)
  : FS * Result (option path) :=
  let initDir := if isAbsolute targetDir then Some [] else None in
  mkdir_reduce fs targetDir initDir (split targetDir).

(* ================================================================== *)
(** * The item downloader: [downloadVideo] *)

(** What the stream returned by [ytdl(url, ...)] emits, with the reading of
    [Date.now()] at the events that use it. *)
Inductive StreamEvent : Type :=
| EvResponse (now : Z)
| EvProgress (chunkLength downloaded total : num) (now : Z)
| EvEnd
| EvError (err : Err).

(** The state of the promise created by [new Promise(...)]. *)
Inductive Promise : Type :=
| Pending
| Fulfilled (value : string)
| Rejected (reason : Err).

(** [resolve(v)] and [reject(e)]: only a pending promise changes. *)
Definition resolve (v : string) (p : Promise) : Promise :=
  match p with Pending => Fulfilled v | _ => p end.

Definition reject (e : Err) (p : Promise) : Promise :=
  match p with Pending => Rejected e | _ => p end.

Definition settled (p : Promise) : bool :=
  match p with Pending => false | _ => true end.

(** The spinners of the progress reporter, by name. *)
Inductive SpinnerStatus : Type := Spinning | Succeeded | Failed.

Record Spinner : Type := {
  status : SpinnerStatus;
  text : string;
}.

Definition spinnies_add (name txt : string) (sp : gmap string Spinner)
  : gmap string Spinner :=
  <[name := {| status := Spinning; text := txt |}]> sp.

Definition spinnies_update (name txt : string) (sp : gmap string Spinner)
  : gmap string Spinner :=
  alter (fun s => {| status := status s; text := txt |}) name sp.

Definition spinnies_succeed (name txt : string) (sp : gmap string Spinner)
  : gmap string Spinner :=
  alter (fun _ => {| status := Succeeded; text := txt |}) name sp.

Definition spinnies_fail (name txt : string) (sp : gmap string Spinner)
  : gmap string Spinner :=
  alter (fun _ => {| status := Failed; text := txt |}) name sp.

(** The arguments of [downloadVideo] other than the shared [spinnies]. *)
Record DownloadArgs : Type := {
  title : string;
  url : string;
  outputDir : string;
}.

(** One running [downloadVideo]: its promise, [starttime], whether the
    [once('response')] listener is still installed, and the file the stream
    is piped into.  The spinners are the shared reporter. *)
Record Download : Type := {
  promise : Promise;
  starttime : option Z;
  response_listener : bool;
  destination : string;
  spinnies : gmap string Spinner;
}.

Definition downloadText (a : DownloadArgs) : string :=
  ("Downloading " ++ title a)%string.

(** [(Date.now() - starttime) / 1000 / 60] *)
Definition downloadedMinutes (now : Z) (starttime : option Z) : num :=
  match starttime with
  | Some t => div (div (of_Z (now - t)) (of_Z 1000)) (of_Z 60)
  | None => NaN
  end.

Definition percent_of (downloaded total : num) : num := div downloaded total.

(** [downloadedMinutes / percent - downloadedMinutes] *)
Definition estimatedDownloadTime (minutes percent : num) : num :=
  sub (div minutes percent) minutes.

Definition megabytes (bytes : num) : num :=
  div (div bytes (of_Z 1024)) (of_Z 1024).

(** The text handed to [spinnies.update] by the ['progress'] listener. *)
Definition progress_text (a : DownloadArgs) (downloaded total : num)
    (now : Z) (starttime : option Z) : string :=
  let percent := percent_of downloaded total in
  let minutes := downloadedMinutes now starttime in
  (downloadText a
   ++ ", Completed: " ++ toFixed2 (mul percent (of_Z 100)) ++ "%"
   ++ ", " ++ toFixed2 (megabytes downloaded)
   ++ "MB of " ++ toFixed2 (megabytes total) ++ "MB"
   ++ ", estimated time left: "
   ++ toFixed2 (estimatedDownloadTime minutes percent) ++ "minutes")%string.

(** The synchronous part of the executor: the spinner is added and the
    stream is piped into [path.join(outputDir, title + '.mp4')]. *)
Definition downloadVideo_start (sp : gmap string Spinner) (a : DownloadArgs)
  : Download :=
  {| promise := Pending;
     starttime := None;
     response_listener := true;
     destination := path_join (outputDir a) (title a ++ ".mp4");
     spinnies := spinnies_add (title a) (downloadText a) sp |}.

(** The listeners on ['response'], ['progress'], ['end'] and ['error']. *)
Definition on_event (a : DownloadArgs) (d : Download) (ev : StreamEvent)
  : Download :=
  match ev with
  | EvResponse now =>
      if response_listener d then
        {| promise := promise d; starttime := Some now;
           response_listener := false; destination := destination d;
           spinnies := spinnies d |}
      else d
  | EvProgress _ downloaded total now =>
      {| promise := promise d; starttime := starttime d;
         response_listener := response_listener d;
         destination := destination d;
         spinnies :=
           spinnies_update (title a)
             (progress_text a downloaded total now (starttime d)) (spinnies d) |}
  | EvEnd =>
      let message := ("Finished downloading " ++ title a)%string in
      {| promise := resolve message (promise d); starttime := starttime d;
         response_listener := response_listener d;
         destination := destination d;
         spinnies := spinnies_succeed (title a) message (spinnies d) |}
  | EvError err =>
      {| promise := reject err (promise d); starttime := starttime d;
         response_listener := response_listener d;
         destination := destination d;
         spinnies :=
           spinnies_fail (title a) ("Failed to download " ++ title a) (spinnies d) |}
  end.

(** [downloadVideo] driven by the events its stream emits. *)
Definition downloadVideo (events : list StreamEvent) (sp : gmap string Spinner)
    (a : DownloadArgs) : Download :=
  fold_left (on_event a) events (downloadVideo_start sp a).

(** The events on which the stream is over. *)
Definition terminal (ev : StreamEvent) : bool :=
  match ev with
  | EvEnd | EvError _ => true
  | _ => false
  end.

(** The promise a stream leads to, read off its first terminal event. *)
Definition outcome_of_events (a : DownloadArgs) (events : list StreamEvent)
  : Promise :=
  match List.find terminal events with
  | Some EvEnd => Fulfilled ("Finished downloading " ++ title a)
  | Some (EvError err) => Rejected err
  | _ => Pending
  end.

(** A total size the resolver does not know ([NaN]) or reports as zero. *)
Definition zero_or_unknown (total : num) : bool :=
  match total with
  | NaN => true
  | Fin q => match qsign q with SZero => true | _ => false end
  | _ => false
  end.

(** [hay.includes(needle)] *)
Definition contains (needle hay : string) : bool :=
  match String.index 0 needle hay with
  | Some _ => true
  | None => false
  end.

(* ================================================================== *)
(** * The collaborators and [getPLaylist] *)

(** The third-party functions the script calls: the playlist resolver, the
    single-item metadata call, the events of the stream opened for a url,
    and the file-name sanitizer. *)
Record World : Type := {
  ytpl : string -> Result Playlist;
  getBasicInfo : string -> Result VideoDetails;
  ytdl : string -> list StreamEvent;
  sanitize : string -> string;
}.

(** [!playlistLink] *)
Definition falsy (playlistLink : option string) : bool :=
  match playlistLink with
  | None => true
  | Some s => String.eqb s ""
  end.

Definition getPLaylist (w : World) (playlistLink : option string)
  : Result Playlist :=
  if falsy playlistLink then
    Fail (MkErr (CNum 400) "No playlist link provided")
  else
    match ytpl w (default ""%string playlistLink) with
    | Ok playlist => Ok playlist
    | Fail err => Fail (MkErrWith (CNum 404) "Playlist link or id not found" err)
    end.

(* ================================================================== *)
(** * The concurrency limiter *)

(** Modelled from the spec: the limiter ([p-limit]) is not part of the
    sources.  It owns a fixed pool of [concurrency] execution slots, with
    [concurrency >= 1] (anything else is an input error); tasks wait in
    submission order while all slots are taken, and a slot is released when
    its task settles. *)
Inductive Slots : Type :=
| Bounded (k : nat)
| Unbounded.

(** Modelled from the spec: [pLimit(concurrency)] makes the pool, and throws
    for a [concurrency] that is not a number from 1 up. *)
Definition pLimit (c : ival) : Result Slots :=
  match c with
  | IInt z =>
      if 1 <=? z then Ok (Bounded (Z.to_nat z))
      else Fail (MkErr CUndef "Expected `concurrency` to be a number from 1 and up")
  | IPosInf => Ok Unbounded
  | _ => Fail (MkErr CUndef "Expected `concurrency` to be a number from 1 and up")
  end.

(** Modelled from the spec: a waiting task starts only while fewer than
    [concurrency] tasks hold a slot. *)
Definition has_free_slot (slots : Slots) (active : list nat) : bool :=
  match slots with
  | Bounded k => Nat.ltb (length active) k
  | Unbounded => true
  end.

(* ================================================================== *)
(** * The orchestrator: [main] *)

(** What a run does to the outside, in order. *)
Inductive Effect : Type :=
| ConsoleLog (s : string)
| ConsoleDebug (s : string) (e : Err)
| ConsoleError (s : string) (e : Err)
| MkDirByPath (targetDir : string)
| GetBasicInfo (link : string)
| Direct (a : DownloadArgs)
| ProcessExit (c : Z).

(** The exit status of the process: the argument of the first
    [process.exit], and 0 when the script runs to its end without one. *)
Fixpoint exit_code (log : list Effect) : Z :=
  match log with
  | [] => 0
  | ProcessExit c :: _ => c
  | _ :: rest => exit_code rest
  end.

Definition is_exit (e : Effect) : bool :=
  match e with ProcessExit _ => true | _ => false end.

Definition exited (log : list Effect) : bool := existsb is_exit log.

(** The downloads started outside the limiter. *)
Definition is_direct (e : Effect) : bool :=
  match e with Direct _ => true | _ => false end.

Definition direct_downloads (log : list Effect) : nat :=
  length (List.filter is_direct log).

(** The [try] block up to [await Promise.all(promises)]: either something
    was thrown, or the jobs were handed to the limiter in this order. *)
Inductive TryOutcome : Type :=
| Threw (fs : FS) (log : list Effect) (error : Err)
| Awaiting (fs : FS) (log : list Effect) (slots : Slots) (jobs : list DownloadArgs).

Definition actualLimit (cm : CmObj) (playlist : Playlist) : ival :=
  imin (limit cm) (isub (estimated_items playlist) (offset cm)).

(** The jobs of [playlist.items.slice(...).map(...)], in submission order. *)
Definition scheduled (w : World) (cm : CmObj) (playlist : Playlist)
    (outputDir : string) : list DownloadArgs :=
  map (fun item =>
         {| title := sanitize w (item_title item);
            url := item_url item;
            outputDir := outputDir |})
      (slice (items playlist) (offset cm)
             (iadd (offset cm) (actualLimit cm playlist))).

Definition main_try (w : World) (fs : FS) (cm : CmObj) : TryOutcome :=
  match getPLaylist w (Some (link cm)) with
  | Fail error => Threw fs [] error
  | Ok playlist =>
      let found :=
        ConsoleLog ("Playlist " ++ playlist_title playlist
                    ++ " Found. Total Items: "
                    ++ ival_to_string (estimated_items playlist)) in
      let outputDir :=
        if titleDir cm
        then path_join (output cm) (sanitize w (playlist_title playlist))
        else output cm in
      match mkDirByPathSync fs outputDir with
      | (fs', Fail error) => Threw fs' [found; MkDirByPath outputDir] error
      | (fs', Ok _) =>
          match pLimit (concurrency cm) with
          | Fail error => Threw fs' [found; MkDirByPath outputDir] error
          | Ok slots =>
              let only :=
                ConsoleLog ("Downloading only "
                            ++ ival_to_string (actualLimit cm playlist)
                            ++ " videos starting from video "
                            ++ ival_to_string (iadd (offset cm) (IInt 1))
                            ++ "...") in
              Awaiting fs' [found; MkDirByPath outputDir; only] slots
                       (scheduled w cm playlist outputDir)
          end
      end
  end.

(** The outcome of one job: the promise of [downloadVideo] once the stream
    of its url has emitted all its events. *)
Definition job_outcome (w : World) (a : DownloadArgs) : Promise :=
  promise (downloadVideo (ytdl w (url a)) ∅ a).

Definition single_video_failed (e : Err) : list Effect :=
  [ConsoleError "Error while trying to donwload single video" e; ProcessExit 1].

(** The [catch (error)] block. *)
Definition main_catch (w : World) (fs : FS) (cm : CmObj) (error : Err)
  : list Effect :=
  if code_loose_eq (code error) 404 then
    ConsoleLog "Playlist not found. Trying to download video instead."
    :: GetBasicInfo (link cm)
    :: match getBasicInfo w (link cm) with
       | Fail e => single_video_failed e
       | Ok videoDetails =>
           MkDirByPath (output cm)
           :: match mkDirByPathSync fs (output cm) with
              | (_, Fail e) => single_video_failed e
              | (_, Ok _) =>
                  let a := {| title := vd_title videoDetails;
                              url := video_url videoDetails;
                              outputDir := output cm |} in
                  Direct a
                  :: match job_outcome w a with
                     | Rejected e => single_video_failed e
                     | _ => []
                     end
              end
       end
  else [ConsoleError "Error: " error].

(** ** The batch: limiter, jobs and the suspended [await Promise.all] *)

(** Jobs are named by their position in the schedule.  [queue] are the jobs
    waiting in the limiter, [active] the ones holding a slot, [outcomes] the
    settled ones in the order they settled.  [awaiting] says that [main] is
    still suspended at [await Promise.all(promises)]; [result] is the array
    it receives when every promise is fulfilled. *)
Record Batch : Type := {
  queue : list nat;
  active : list nat;
  outcomes : list (nat * Promise);
  awaiting : bool;
  result : option (list string);
  console : list Effect;
}.

(** Lines after the [await]: the summary and [process.exit(0)]. *)
Definition finished (r : list string) : list Effect :=
  [ConsoleLog ("Finished downloading "
               ++ string_of_nat (length r) ++ " videos.");
   ProcessExit 0].

Definition fulfilled_value (p : Promise) : string :=
  match p with Fulfilled v => v | _ => "" end.

(** The values of the fulfilled promises in the order of the schedule. *)
Definition values_in_order (n : nat) (os : list (nat * Promise)) : list string :=
  map (fun j =>
         match list_find (fun o => fst o = j) os with
         | Some (_, (_, p)) => fulfilled_value p
         | None => ""%string
         end)
      (seq 0 n).

Definition batch_init (log : list Effect) (n : nat) : Batch :=
  match n with
  | O => {| queue := []; active := []; outcomes := []; awaiting := false;
            result := Some []; console := log ++ finished [] |}
  | _ => {| queue := seq 0 n; active := []; outcomes := []; awaiting := true;
            result := None; console := log |}
  end.

(** Job [j] settles with [o]: its slot is released, and [Promise.all]
    rejects on the first rejection or is fulfilled by the last value. *)
Definition on_settle (handler : Err -> list Effect) (n : nat) (st : Batch)
    (j : nat) (o : Promise) : Batch :=
  let outcomes' := outcomes st ++ [(j, o)] in
  let active' := filter (fun i => i ≠ j) (active st) in
  if awaiting st then
    match o with
    | Rejected e =>
        {| queue := queue st; active := active'; outcomes := outcomes';
           awaiting := false; result := None;
           console := console st ++ handler e |}
    | _ =>
        if Nat.eqb (length outcomes') n then
          let r := values_in_order n outcomes' in
          {| queue := queue st; active := active'; outcomes := outcomes';
             awaiting := false; result := Some r;
             console := console st ++ finished r |}
        else
          {| queue := queue st; active := active'; outcomes := outcomes';
             awaiting := true; result := None; console := console st |}
    end
  else
    {| queue := queue st; active := active'; outcomes := outcomes';
       awaiting := false; result := result st; console := console st |}.

(** One turn of the event loop for the batch.  [step_start], modelled from
    the spec of the limiter: the oldest waiting job starts when a slot is
    free.  [step_settle]: a running job whose download has an outcome
    settles, which releases its slot and is seen by [Promise.all].  Nothing
    happens after [process.exit]. *)
Inductive step (w : World) (slots : Slots) (jobs : list DownloadArgs)
    (handler : Err -> list Effect) : Batch -> Batch -> Prop :=
| step_start st j q :
    exited (console st) = false ->
    queue st = j :: q ->
    has_free_slot slots (active st) = true ->
    step w slots jobs handler st
         {| queue := q; active := active st ++ [j]; outcomes := outcomes st;
            awaiting := awaiting st; result := result st;
            console := console st |}
| step_settle st j a :
    exited (console st) = false ->
    j ∈ active st ->
    jobs !! j = Some a ->
    settled (job_outcome w a) = true ->
    step w slots jobs handler st
         (on_settle handler (length jobs) st j (job_outcome w a)).

(** The batch of a run of [main]: its first state and its turns. *)
Definition main_init (w : World) (fs : FS) (cm : CmObj) : option Batch :=
  match main_try w fs cm with
  | Threw _ _ _ => None
  | Awaiting _ log _ jobs => Some (batch_init log (length jobs))
  end.

Definition main_step (w : World) (fs : FS) (cm : CmObj) : Batch -> Batch -> Prop :=
  match main_try w fs cm with
  | Threw _ _ _ => fun _ _ => False
  | Awaiting fs' _ slots jobs => step w slots jobs (main_catch w fs' cm)
  end.

Definition reachable (w : World) (fs : FS) (cm : CmObj) (st : Batch) : Prop :=
  exists st0, main_init w fs cm = Some st0 /\ rtc (main_step w fs cm) st0 st.

(** A run of [main]: over when the [try] block threw and the [catch] block
    has run, or in its batch. *)
Inductive MainState : Type :=
| Ended (log : list Effect)
| Batching (st : Batch).

Definition main (w : World) (fs : FS) (cm : CmObj) : MainState :=
  match main_try w fs cm with
  | Threw fs' log error => Ended (log ++ main_catch w fs' cm error)
  | Awaiting _ log _ jobs => Batching (batch_init log (length jobs))
  end.

(** What a run has done to the outside so far. *)
Definition run_log (m : MainState) : list Effect :=
  match m with
  | Ended log => log
  | Batching st => console st
  end.

(** Every job is waiting, running or settled, exactly once. *)
Definition accounted (n : nat) (st : Batch) : Prop :=
  queue st ++ active st ++ (outcomes st).*1 ≡ₚ seq 0 n.

(** A settled job carries the outcome of its own download. *)
Definition own_outcomes (w : World) (jobs : list DownloadArgs) (st : Batch) : Prop :=
  forall j o, (j, o) ∈ outcomes st ->
    exists a, jobs !! j = Some a /\ o = job_outcome w a.

(** All jobs have settled. *)
Definition all_settled (n : nat) (st : Batch) : Prop :=
  length (outcomes st) = n.

(* ================================================================== *)
(** * The two older scripts of [index.js] *)

(** The first script: no [--offset], [--limit] or [--title-dir]; every item
    is handed to the limiter under its raw title, and the [catch] block only
    prints. *)
Module Rev1.

Definition scheduled (playlist : Playlist) (outputDir : string)
  : list DownloadArgs :=
  map (fun item =>
         {| title := item_title item; url := item_url item;
            outputDir := outputDir |})
      (items playlist).

Definition main_try (w : World) (fs : FS) (cm : CmObj) : TryOutcome :=
  match getPLaylist w (Some (link cm)) with
  | Fail error => Threw fs [] error
  | Ok playlist =>
      let found :=
        ConsoleLog ("Playlist " ++ playlist_title playlist
                    ++ " Found. Total Items: "
                    ++ ival_to_string (total_items playlist)) in
      let outputDir := path_join (output cm) (playlist_title playlist) in
      match mkDirByPathSync fs outputDir with
      | (fs', Fail error) => Threw fs' [found; MkDirByPath outputDir] error
      | (fs', Ok _) =>
          match pLimit (concurrency cm) with
          | Fail error => Threw fs' [found; MkDirByPath outputDir] error
          | Ok slots =>
              Awaiting fs' [found; MkDirByPath outputDir] slots
                       (scheduled playlist outputDir)
          end
      end
  end.

(** The [catch (error)] block, with its [// TODO add video download]. *)
Definition main_catch (error : Err) : list Effect :=
  if code_loose_eq (code error) 404 then
    [ConsoleDebug "Playlist not found. Trying to download video instead." error]
  else [].

(** The run up to the point where the jobs are in the limiter ([None]), or
    the whole run when the [try] block threw before. *)
Definition main (w : World) (fs : FS) (cm : CmObj) : option (list Effect) :=
  match main_try w fs cm with
  | Threw _ log error => Some (log ++ main_catch error)
  | Awaiting _ _ _ _ => None
  end.

(** [downloadVideo] without a listener on ['error']: an ['error'] event
    without a listener is thrown by the emitter, and the promise is not
    touched. *)
Definition on_event (a : DownloadArgs) (d : Download) (ev : StreamEvent)
  : Download * option Err :=
  match ev with
  | EvError err => (d, Some err)
  | _ => (on_event a d ev, None)
  end.

(** The events are handled up to the first uncaught exception. *)
Fixpoint run (a : DownloadArgs) (d : Download) (events : list StreamEvent)
  : Download * option Err :=
  match events with
  | [] => (d, None)
  | ev :: rest =>
      match on_event a d ev with
      | (d', None) => run a d' rest
      | (d', Some err) => (d', Some err)
      end
  end.

Definition downloadVideo (events : list StreamEvent) (sp : gmap string Spinner)
    (a : DownloadArgs) : Download * option Err :=
  run a (downloadVideo_start sp a) events.

End Rev1.

(** The second script: [--offset] and [--limit] slice the items directly;
    titles are not sanitized; the [catch] block is the one of the newest
    script. *)
Module Rev2.

Definition scheduled (cm : CmObj) (playlist : Playlist) (outputDir : string)
  : list DownloadArgs :=
  map (fun item =>
         {| title := item_title item; url := item_url item;
            outputDir := outputDir |})
      (slice (items playlist) (offset cm) (iadd (offset cm) (limit cm))).

Definition main_try (w : World) (fs : FS) (cm : CmObj) : TryOutcome :=
  match getPLaylist w (Some (link cm)) with
  | Fail error => Threw fs [] error
  | Ok playlist =>
      let found :=
        ConsoleLog ("Playlist " ++ playlist_title playlist
                    ++ " Found. Total Items: "
                    ++ ival_to_string (total_items playlist)) in
      let only :=
        ConsoleLog ("Downloading only " ++ ival_to_string (limit cm)
                    ++ " videos starting from video "
                    ++ ival_to_string (iadd (offset cm) (IInt 1)) ++ "...") in
      let outputDir := path_join (output cm) (playlist_title playlist) in
      match mkDirByPathSync fs outputDir with
      | (fs', Fail error) => Threw fs' [found; only; MkDirByPath outputDir] error
      | (fs', Ok _) =>
          match pLimit (concurrency cm) with
          | Fail error => Threw fs' [found; only; MkDirByPath outputDir] error
          | Ok slots =>
              Awaiting fs' [found; only; MkDirByPath outputDir] slots
                       (scheduled cm playlist outputDir)
          end
      end
  end.

End Rev2.

(* ================================================================== *)
(** * The schedule in the words of the specification *)

(** [max(0, min(limit, itemCount - offset))] *)
Definition spec_count (itemCount : nat) (offset : Z) (limit : ival) : Z :=
  match imin limit (IInt (Z.of_nat itemCount - offset)) with
  | IInt c => Z.max 0 c
  | _ => 0
  end.

(** [items[offset : offset + effectiveCount]] *)
Definition spec_slice {A : Type} (l : list A) (offset : Z) (limit : ival)
  : list A :=
  take (Z.to_nat (spec_count (length l) offset limit)) (drop (Z.to_nat offset) l).

(** A valid [--limit]: a non-negative integer or the unbounded default. *)
Definition valid_limit (l : ival) : Prop :=
  match l with
  | IInt z => 0 <= z
  | IPosInf => True
  | _ => False
  end.

(** The jobs handed to the limiter by a [try] block. *)
Definition submitted (o : TryOutcome) : list DownloadArgs :=
  match o with
  | Threw _ _ _ => []
  | Awaiting _ _ _ jobs => jobs
  end.

(* ================================================================== *)
(** * Notions used by the further properties *)

(** The job [main] makes of a playlist item. *)
Definition job_of (w : World) (dir : string) (it : PlaylistItem) : DownloadArgs :=
  {| title := sanitize w (item_title it); url := item_url it; outputDir := dir |}.

(** The message a finished download resolves with. *)
Definition finished_message (a : DownloadArgs) : string :=
  ("Finished downloading " ++ title a)%string.

(** The last ['end'] or ['error'] of a stream, if any. *)
Definition last_terminal (events : list StreamEvent) : option StreamEvent :=
  List.find terminal (rev events).

(** The spinner status that goes with the last terminal event. *)
Definition status_after (events : list StreamEvent) : SpinnerStatus :=
  match last_terminal events with
  | Some EvEnd => Succeeded
  | Some (EvError _) => Failed
  | _ => Spinning
  end.

Definition is_response (ev : StreamEvent) : bool :=
  match ev with EvResponse _ => true | _ => false end.

(** The clock reading of the first ['response'] of a stream, if any. *)
Definition first_response (events : list StreamEvent) : option Z :=
  match List.find is_response events with
  | Some (EvResponse now) => Some now
  | _ => None
  end.

(** A file system without injected errors and without plain files, whose
    working directory exists and whose directories have their parents. *)
Definition fs_healthy (fs : FS) : Prop :=
  faults fs = ∅ /\ files fs = ∅
  /\ exists_dir fs (cwd fs) = true
  /\ (forall p, exists_dir fs p = true -> exists_dir fs (removelast p) = true).

(** The second file system has all the directories of the first, and the
    same files, injected errors and working directory. *)
Definition fs_extends (fs1 fs2 : FS) : Prop :=
  dirs fs1 ⊆ dirs fs2 /\ files fs2 = files fs1
  /\ faults fs2 = faults fs1 /\ cwd fs2 = cwd fs1.

(* ================================================================== *)
(** * Sample worlds *)

Definition item (t : string) : PlaylistItem :=
  {| item_title := t; item_url := ("https://youtu.be/" ++ t)%string |}.

Definition five_items : list PlaylistItem :=
  [item "A"; item "B"; item "C"; item "D"; item "E"].

(** A sanitizer that drops the path separator, as [sanitize-filename] does. *)
Fixpoint strip_sep (s : string) : string :=
  match s with
  | EmptyString => EmptyString
  | String c s' => if Ascii.eqb c sep then strip_sep s' else String c (strip_sep s')
  end.

Definition home_fs : FS :=
  {| dirs := {[ ["home"%string]; ["home"; "u"]%string ]};
     files := ∅; faults := ∅; cwd := ["home"; "u"]%string |}.

Definition good_stream : list StreamEvent :=
  [EvResponse 0; EvProgress (of_Z 512) (of_Z 512) (of_Z 1024) 30000; EvEnd].

Definition playlist_world (p : Playlist) : World :=
  {| ytpl := fun _ => Ok p;
     getBasicInfo := fun _ => Fail (MkErr CUndef "Video unavailable");
     ytdl := fun _ => good_stream;
     sanitize := strip_sep |}.

Definition cm_default (l : string) : CmObj :=
  {| link := l; output := "./"; concurrency := IInt 5; limit := IPosInf;
     offset := IInt 0; titleDir := false |}.

(** A playlist whose resolver reports fewer items than it lists. *)
Definition under_estimated : Playlist :=
  {| playlist_title := "Mix"; total_items := INaN;
     estimated_items := IInt 3; items := five_items |}.

Definition five_playlist : Playlist :=
  {| playlist_title := "Mix"; total_items := INaN;
     estimated_items := IInt 5; items := five_items |}.

(** A stream error as the downloader library reports it. *)
Definition forbidden : Err := MkErr CUndef "Status code: 403".

(** Every stream ends well except the one of item B. *)
Definition flaky_world (p : Playlist) : World :=
  {| ytpl := fun _ => Ok p;
     getBasicInfo := fun _ => Fail (MkErr CUndef "Video unavailable");
     ytdl := fun u =>
       if String.eqb u "https://youtu.be/B"
       then [EvResponse 0; EvError forbidden]
       else good_stream;
     sanitize := strip_sep |}.

Definition two_playlist : Playlist :=
  {| playlist_title := "Mix"; total_items := INaN;
     estimated_items := IInt 2; items := [item "A"; item "B"] |}.

Definition cm_two_slots : CmObj :=
  {| link := "PL1"; output := "./"; concurrency := IInt 2; limit := IPosInf;
     offset := IInt 0; titleDir := false |}.

Definition job (t : string) : DownloadArgs :=
  {| title := t; url := ("https://youtu.be/" ++ t)%string; outputDir := "./" |}.

Definition log_two : list Effect :=
  [ConsoleLog "Playlist Mix Found. Total Items: 2";
   MkDirByPath "./";
   ConsoleLog "Downloading only 2 videos starting from video 1..."].

Definition log_five : list Effect :=
  [ConsoleLog "Playlist Mix Found. Total Items: 5";
   MkDirByPath "./";
   ConsoleLog "Downloading only 5 videos starting from video 1..."].

(** Five jobs, two slots: A and B run, the others wait. *)
Definition two_of_five_running : Batch :=
  {| queue := [2; 3; 4]%nat; active := [0; 1]%nat; outcomes := [];
     awaiting := true; result := None; console := log_five |}.

(** Two jobs, B has failed and A is still running. *)
Definition after_failure_of_B : Batch :=
  {| queue := []; active := [0%nat]; outcomes := [(1%nat, Rejected forbidden)];
     awaiting := false; result := None;
     console := log_two ++ [ConsoleError "Error: " forbidden] |}.

(** Two jobs, B has failed and A has finished after it. *)
Definition after_A_and_B : Batch :=
  {| queue := []; active := [];
     outcomes := [(1%nat, Rejected forbidden);
                  (0%nat, Fulfilled "Finished downloading A")];
     awaiting := false; result := None;
     console := log_two ++ [ConsoleError "Error: " forbidden] |}.

(** A download of the song used in the progress examples. *)
Definition song : DownloadArgs :=
  {| title := "Song"; url := "https://youtu.be/Song"; outputDir := "./" |}.

(** The resolver's own failure for a link that is not a playlist. *)
Definition unresolved : Err := MkErr CUndef "Unable to find a id in v1".

Definition not_found : Err :=
  MkErrWith (CNum 404) "Playlist link or id not found" unresolved.

Definition no_link : Err := MkErr (CNum 400) "No playlist link provided".

(** The link names a single video, whose title has a path separator in it. *)
Definition video_world : World :=
  {| ytpl := fun _ => Fail unresolved;
     getBasicInfo := fun _ =>
       Ok {| vd_title := "AC/DC - Live"; video_url := "https://youtu.be/v1" |};
     ytdl := fun _ => good_stream;
     sanitize := strip_sep |}.

Definition single_video : DownloadArgs :=
  {| title := "AC/DC - Live"; url := "https://youtu.be/v1"; outputDir := "./" |}.

(** A file system that refuses to create [/home/u/out]. *)
Definition locked_fs : FS :=
  {| dirs := {[ ["home"%string]; ["home"; "u"]%string ]};
     files := ∅;
     faults := {[ ["home"; "u"; "out"]%string := "EACCES"%string ]};
     cwd := ["home"; "u"]%string |}.

Definition cm_out : CmObj :=
  {| link := "PL1"; output := "out"; concurrency := IInt 5; limit := IPosInf;
     offset := IInt 0; titleDir := false |}.

(** A platform on which [mkdir] of the root raises ['EISDIR']. *)
Definition mac_fs : FS :=
  {| dirs := {[ ["home"%string]; ["home"; "u"]%string ]};
     files := ∅;
     faults := {[ ([] : path) := "EISDIR"%string ]};
     cwd := ["home"; "u"]%string |}.


(** Flags for the further properties. *)
Definition cm_flags (o l : ival) : CmObj :=
  {| link := "PL1"; output := "./"; concurrency := IInt 5; limit := l;
     offset := o; titleDir := false |}.


(** Two jobs that both succeed, B before A. *)
Definition both_done : Batch :=
  {| queue := []; active := [];
     outcomes := [(1%nat, Fulfilled "Finished downloading B");
                  (0%nat, Fulfilled "Finished downloading A")];
     awaiting := false;
     result := Some ["Finished downloading A"; "Finished downloading B"]%string;
     console := log_two ++ [ConsoleLog "Finished downloading 2 videos.";
                            ProcessExit 0] |}.

(* ================================================================== *)
(** * The schedule: offset, limit and the estimated item count *)

Section Schedule.

Context {A : Type}.
Implicit Types (l : list A) (o e : Z).

(** A slice between two non-negative integer bounds. *)
Lemma slice_nonneg l o e :
  0 <= o -> 0 <= e ->
  slice l (IInt o) (IInt e)
  = take (Z.to_nat (Z.min e (Z.of_nat (length l)) - Z.min o (Z.of_nat (length l))))
         (drop (Z.to_nat (Z.min o (Z.of_nat (length l)))) l).
Proof.
  intros Ho He. unfold slice, relative_index.
  destruct (Z.ltb_spec o 0) as [H1 | _]; [lia |].
  destruct (Z.ltb_spec e 0) as [H2 | _]; [lia |].
  f_equal. lia.
Qed.

(** A slice that runs to the end of the list. *)
Lemma slice_to_end l o :
  0 <= o ->
  slice l (IInt o) IPosInf = drop (Z.to_nat o) l.
Proof.
  intros Ho. unfold slice, relative_index.
  destruct (Z.ltb_spec o 0) as [H1 | _]; [lia |].
  destruct (Z_le_gt_dec o (Z.of_nat (length l))) as [Hle | Hgt].
  - rewrite Z.min_l by lia. apply take_ge. rewrite length_drop. lia.
  - rewrite Z.min_r by lia.
    rewrite (drop_ge l (Z.to_nat o)) by lia.
    rewrite drop_ge by lia. apply take_nil.
Qed.

Lemma take_drop_beyond l (n k : nat) :
  (length l <= k)%nat -> take n (drop k l) = [].
Proof. intros H. rewrite drop_ge by exact H. apply take_nil. Qed.

(** With an estimate that is not below the number of items, the sliced
    items are the ones the specification names. *)
Lemma slice_with_covering_estimate l o e lim :
  0 <= o -> valid_limit lim -> Z.of_nat (length l) <= e ->
  slice l (IInt o) (iadd (IInt o) (imin lim (isub (IInt e) (IInt o))))
  = spec_slice l o lim.
Proof.
  intros Ho Hlim He. unfold spec_slice, spec_count.
  destruct lim as [| | | lm]; simpl in Hlim; try contradiction; simpl.
  - (* unbounded *)
    replace (o + (e + - o)) with e by lia.
    rewrite slice_nonneg by lia.
    destruct (Z_le_gt_dec o (Z.of_nat (length l))).
    + rewrite Z.min_r, Z.min_l by lia. f_equal. lia.
    + rewrite !take_drop_beyond by lia. reflexivity.
  - rewrite slice_nonneg by lia.
    destruct (Z_le_gt_dec o (Z.of_nat (length l))).
    + rewrite (Z.min_l o) by lia. f_equal. lia.
    + rewrite !take_drop_beyond by lia. reflexivity.
Qed.

Lemma spec_slice_length l o lim :
  0 <= o -> valid_limit lim ->
  Z.of_nat (length (spec_slice l o lim)) = spec_count (length l) o lim.
Proof.
  intros Ho Hlim. unfold spec_slice.
  rewrite length_take, length_drop.
  assert (0 <= spec_count (length l) o lim).
  { unfold spec_count. destruct lim; simpl; lia. }
  assert (spec_count (length l) o lim <= Z.max 0 (Z.of_nat (length l) - o)).
  { unfold spec_count. destruct lim; simpl in *; try contradiction; lia. }
  lia.
Qed.

End Schedule.

(** The schedule of the newest script whenever the resolver's estimate is
    at least the number of items it lists: the slice named by the
    specification, in the original order, sanitized title by title. *)
Lemma scheduled_with_covering_estimate w cm p dir o e :
  offset cm = IInt o -> 0 <= o -> valid_limit (limit cm) ->
  estimated_items p = IInt e -> Z.of_nat (length (items p)) <= e ->
  scheduled w cm p dir
  = map (fun it => {| title := sanitize w (item_title it);
                      url := item_url it; outputDir := dir |})
        (spec_slice (items p) o (limit cm))
  /\ Z.of_nat (length (scheduled w cm p dir))
     = spec_count (length (items p)) o (limit cm).
Proof.
  intros Hoff Ho Hlim Hest Hcover.
  unfold scheduled, actualLimit. rewrite Hoff, Hest.
  rewrite slice_with_covering_estimate by assumption.
  split; [reflexivity |].
  rewrite length_map. apply spec_slice_length; assumption.
Qed.

(** The second script slices with [limit] itself and always schedules the
    slice of the specification. *)
Lemma rev2_scheduled_is_spec_slice cm p dir o :
  offset cm = IInt o -> 0 <= o -> valid_limit (limit cm) ->
  Rev2.scheduled cm p dir
  = map (fun it => {| title := item_title it;
                      url := item_url it; outputDir := dir |})
        (spec_slice (items p) o (limit cm)).
Proof.
  intros Hoff Ho Hlim. unfold Rev2.scheduled. rewrite Hoff. f_equal.
  destruct (limit cm) as [| | | lm] eqn:El; simpl in Hlim; try contradiction.
  - simpl. rewrite slice_to_end by lia.
    unfold spec_slice, spec_count. simpl.
    destruct (Z_le_gt_dec o (Z.of_nat (length (items p)))).
    + symmetry. apply take_ge. rewrite length_drop. lia.
    + rewrite take_drop_beyond by lia. rewrite drop_ge by lia. reflexivity.
  - simpl. rewrite slice_nonneg by lia.
    unfold spec_slice, spec_count. simpl.
    destruct (Z_le_gt_dec o (Z.of_nat (length (items p)))).
    + rewrite (Z.min_l o) by lia. f_equal. lia.
    + rewrite !take_drop_beyond by lia. reflexivity.
Qed.

(** The scenario of the specification: items A to E, offset 1, limit 2. *)
Example scheduled_B_C :
  map title
      (submitted (main_try (playlist_world five_playlist) home_fs
                    {| link := "PL1"; output := "./"; concurrency := IInt 5;
                       limit := IInt 2; offset := IInt 1; titleDir := false |}))
  = ["B"; "C"]%string.
Proof. vm_compute. reflexivity. Qed.

(** C1, at the failing input.  The resolver lists five items and estimates
    three; with offset 0 and no limit the specification schedules all five,
    [main] schedules only A, B and C. *)
Theorem schedule_cut_by_estimate :
  map title
      (submitted (main_try (playlist_world under_estimated) home_fs
                           (cm_default "PL1")))
  = ["A"; "B"; "C"]%string
  /\ spec_count (length (items under_estimated)) 0 IPosInf = 5
  /\ map item_title (spec_slice (items under_estimated) 0 IPosInf)
     = ["A"; "B"; "C"; "D"; "E"]%string.
Proof. vm_compute. repeat split; reflexivity. Qed.

(* ================================================================== *)
(** * The batch: invariants of the limiter and of the aggregate wait *)

Lemma filter_ne_absent (l : list nat) (j : nat) :
  j ∉ l -> filter (fun i => i ≠ j) l = l.
Proof.
  induction l as [| x l IH]; intros Hj; [done |].
  apply not_elem_of_cons in Hj as [Hne Hj].
  rewrite filter_cons_True by congruence. by rewrite IH.
Qed.

Lemma filter_ne_Permutation (l : list nat) (j : nat) :
  NoDup l -> j ∈ l -> l ≡ₚ j :: filter (fun i => i ≠ j) l.
Proof.
  induction 1 as [| x l Hx Hnd IH]; intros Hj.
  - inversion Hj.
  - destruct (decide (x = j)) as [-> | Hne].
    + rewrite filter_cons_False by (intros H; by apply H).
      by rewrite filter_ne_absent.
    + rewrite filter_cons_True by done.
      apply elem_of_cons in Hj as [-> | Hj]; [done |].
      rewrite (IH Hj) at 1. apply Permutation_swap.
Qed.

Lemma exited_app (l1 l2 : list Effect) :
  exited (l1 ++ l2) = exited l1 || exited l2.
Proof. unfold exited. apply existsb_app. Qed.

Lemma exit_code_app (l1 l2 : list Effect) :
  exited l1 = false -> exit_code (l1 ++ l2) = exit_code l2.
Proof.
  induction l1 as [| x l1 IH]; simpl; [done |].
  destruct x; simpl; intros H; try discriminate; auto.
Qed.

Section Machine.

Variables (w : World) (slots : Slots) (jobs : list DownloadArgs).
Variables (handler : Err -> list Effect) (log : list Effect).

(** Induction over the turns of a batch. *)
Lemma run_invariant (P : Batch -> Prop) :
  P (batch_init log (length jobs)) ->
  (forall st st',
      rtc (step w slots jobs handler) (batch_init log (length jobs)) st ->
      P st -> step w slots jobs handler st st' -> P st') ->
  forall st, rtc (step w slots jobs handler) (batch_init log (length jobs)) st -> P st.
Proof.
  intros Hinit Hstep. apply rtc_ind_r; [exact Hinit |].
  intros y z Hy Hyz IH. eapply Hstep; eauto.
Qed.

Lemma init_accounted : accounted (length jobs) (batch_init log (length jobs)).
Proof.
  unfold accounted, batch_init. destruct (length jobs); simpl.
  - done.
  - rewrite !app_nil_r. done.
Qed.

Lemma on_settle_shape st j o :
  queue (on_settle handler (length jobs) st j o) = queue st
  /\ active (on_settle handler (length jobs) st j o)
     = filter (fun i => i ≠ j) (active st)
  /\ outcomes (on_settle handler (length jobs) st j o) = outcomes st ++ [(j, o)].
Proof.
  unfold on_settle. destruct (awaiting st); [destruct o |]; simpl;
    try destruct (Nat.eqb _ _); simpl; done.
Qed.

Lemma step_accounted st st' :
  step w slots jobs handler st st' ->
  accounted (length jobs) st -> accounted (length jobs) st'.
Proof.
  unfold accounted. intros Hstep Hacc.
  destruct Hstep as [st j q _ Hq _ | st j a _ Hj _ _].
  - simpl. rewrite Hq in Hacc. rewrite <- Hacc.
    rewrite <- (assoc_L (++) (active st)). simpl.
    rewrite (Permutation_app_comm (active st) (j :: _)). simpl.
    rewrite (Permutation_middle q). f_equiv.
    rewrite (Permutation_app_comm _ (active st)). done.
  - destruct (on_settle_shape st j (job_outcome w a)) as (-> & -> & ->).
    rewrite <- Hacc. rewrite fmap_app. simpl.
    assert (NoDup (active st)) as Hnd.
    { assert (NoDup (queue st ++ active st ++ (outcomes st).*1)) as H
        by (rewrite Hacc; apply NoDup_seq).
      apply NoDup_app in H as (_ & _ & H). apply NoDup_app in H as (H & _). done. }
    rewrite (filter_ne_Permutation (active st) j Hnd Hj) at 2.
    f_equiv. simpl. rewrite (Permutation_app_comm _ [j]). simpl.
    rewrite Permutation_middle. done.
Qed.

Lemma run_accounted st :
  rtc (step w slots jobs handler) (batch_init log (length jobs)) st ->
  accounted (length jobs) st.
Proof.
  apply run_invariant; [apply init_accounted |].
  intros ? ? _ ? ?. eapply step_accounted; eauto.
Qed.

(** Counting the jobs of an accounted state. *)
Lemma accounted_length st :
  accounted (length jobs) st ->
  (length (queue st) + length (active st) + length (outcomes st))%nat = length jobs.
Proof.
  unfold accounted. intros H. apply Permutation_length in H.
  rewrite !length_app, length_fmap, length_seq in H. lia.
Qed.

Lemma accounted_elem st j :
  accounted (length jobs) st ->
  (j < length jobs)%nat ->
  j ∈ queue st \/ j ∈ active st \/ j ∈ (outcomes st).*1.
Proof.
  unfold accounted. intros H Hj.
  assert (j ∈ seq 0 (length jobs)) as Hin by (apply elem_of_seq; lia).
  rewrite <- H in Hin. rewrite !elem_of_app in Hin. tauto.
Qed.

Lemma accounted_bound st j :
  accounted (length jobs) st ->
  j ∈ queue st ++ active st ++ (outcomes st).*1 -> (j < length jobs)%nat.
Proof.
  unfold accounted. intros H Hj. rewrite H in Hj.
  apply elem_of_seq in Hj. lia.
Qed.

(** The limiter never runs more jobs than it has slots. *)
Lemma run_active_bound k st :
  slots = Bounded k ->
  rtc (step w slots jobs handler) (batch_init log (length jobs)) st ->
  (length (active st) <= k)%nat.
Proof.
  intros Hk. revert st.
  apply (run_invariant (fun st => (length (active st) <= k)%nat)).
  - unfold batch_init. destruct (length jobs); simpl; lia.
  - intros st1 st2 _ IH Hstep.
    destruct Hstep as [st1 j q _ _ Hfree | st1 j a _ _ _ _].
    + simpl. rewrite Hk in Hfree. simpl in Hfree.
      apply Nat.ltb_lt in Hfree. rewrite length_app. simpl. lia.
    + destruct (on_settle_shape st1 j (job_outcome w a)) as (_ & -> & _).
      pose proof (length_filter (fun i => i ≠ j) (active st1)). lia.
Qed.

(** Settled jobs carry the outcome of their own download. *)
Lemma run_own_outcomes st :
  rtc (step w slots jobs handler) (batch_init log (length jobs)) st ->
  own_outcomes w jobs st.
Proof.
  apply run_invariant.
  - unfold own_outcomes, batch_init. destruct (length jobs); simpl;
      intros j o Hin; inversion Hin.
  - intros st1 st2 _ IH Hstep.
    destruct Hstep as [st1 j q _ _ _ | st1 j a _ _ Ha _].
    + exact IH.
    + unfold own_outcomes.
      destruct (on_settle_shape st1 j (job_outcome w a)) as (_ & _ & ->).
      intros j' o Hin. apply elem_of_app in Hin as [Hin | Hin].
      * by apply IH.
      * apply list_elem_of_singleton in Hin. inversion Hin; subst. eauto.
Qed.

(** While a job is unsettled the batch can take a turn, provided the
    limiter has a slot at all and every download settles. *)
Lemma run_progress st :
  has_free_slot slots [] = true ->
  (forall j a, jobs !! j = Some a -> settled (job_outcome w a) = true) ->
  accounted (length jobs) st ->
  exited (console st) = false ->
  (length (outcomes st) < length jobs)%nat ->
  exists st', step w slots jobs handler st st'.
Proof.
  intros Hslot Hall Hacc Hrun Hlt.
  pose proof (accounted_length st Hacc) as Hlen.
  destruct (active st) as [| j act] eqn:Hact.
  - destruct (queue st) as [| j q] eqn:Hq; [simpl in Hlen; lia |].
    eexists. eapply step_start; eauto. by rewrite Hact.
  - assert (j < length jobs)%nat as Hj.
    { apply (accounted_bound st j Hacc). rewrite Hact.
      rewrite !elem_of_app. right; left. apply elem_of_cons. by left. }
    destruct (lookup_lt_is_Some_2 jobs j Hj) as [a Ha].
    eexists. eapply (step_settle _ _ _ _ st j a); eauto.
    rewrite Hact. apply elem_of_cons. by left.
Qed.

(** Every turn brings the batch closer to its end. *)
Lemma step_measure st st' :
  step w slots jobs handler st st' ->
  (2 * length (queue st') + length (active st')
   < 2 * length (queue st) + length (active st))%nat.
Proof.
  intros Hstep. destruct Hstep as [st j q _ Hq _ | st j a _ Hj _ _].
  - simpl. rewrite Hq, length_app. simpl. lia.
  - destruct (on_settle_shape st j (job_outcome w a)) as (-> & -> & _).
    pose proof (length_filter_lt (fun i => i ≠ j) (active st) j Hj) as Hlt.
    assert (¬ j ≠ j) as Hjj by (intros H; by apply H).
    specialize (Hlt Hjj). lia.
Qed.

(** A batch whose downloads all settle can be run until every job has
    settled or the process has been left. *)
Lemma run_to_the_end st :
  has_free_slot slots [] = true ->
  (forall j a, jobs !! j = Some a -> settled (job_outcome w a) = true) ->
  accounted (length jobs) st ->
  exists st',
    rtc (step w slots jobs handler) st st'
    /\ (all_settled (length jobs) st' \/ exited (console st') = true).
Proof.
  intros Hslot Hall.
  remember (2 * length (queue st) + length (active st))%nat as m eqn:Em.
  revert st Em. induction (lt_wf m) as [m _ IH]. intros st -> Hacc.
  destruct (exited (console st)) eqn:Hex; [exists st; split; [apply rtc_refl | auto] |].
  destruct (decide (length (outcomes st) = length jobs)) as [Hdone | Hnot].
  { exists st. split; [apply rtc_refl | by left]. }
  assert (length (outcomes st) < length jobs)%nat as Hlt.
  { pose proof (accounted_length st Hacc). lia. }
  destruct (run_progress st Hslot Hall Hacc Hex Hlt) as [st1 Hstep].
  destruct (IH _ (step_measure _ _ Hstep) st1 eq_refl
               (step_accounted _ _ Hstep Hacc)) as (st2 & Hrun & Hend).
  exists st2. split; [eapply rtc_l; eauto | exact Hend].
Qed.

End Machine.

(** A batch in which exactly one download is rejected, by an error the
    [catch] block answers without leaving the process. *)
Section OneFailure.

Variables (w : World) (slots : Slots) (jobs : list DownloadArgs).
Variables (handler : Err -> list Effect) (log : list Effect).
Variables (i : nat) (ai : DownloadArgs) (e : Err).

Hypothesis Hi : jobs !! i = Some ai.
Hypothesis Hfail : job_outcome w ai = Rejected e.
Hypothesis Hothers :
  forall j a, j ≠ i -> jobs !! j = Some a -> exists v, job_outcome w a = Fulfilled v.
Hypothesis Hlog : exited log = false.
Hypothesis Hhandler : exited (handler e) = false.

Lemma one_failure_run st :
  rtc (step w slots jobs handler) (batch_init log (length jobs)) st ->
  exited (console st) = false
  /\ result st = None
  /\ (if awaiting st
      then console st = log /\ i ∉ (outcomes st).*1
      else console st = log ++ handler e /\ i ∈ (outcomes st).*1).
Proof.
  revert st.
  apply (run_invariant w slots jobs handler log
           (fun st => exited (console st) = false /\ result st = None
                      /\ (if awaiting st
                          then console st = log /\ i ∉ (outcomes st).*1
                          else console st = log ++ handler e
                               /\ i ∈ (outcomes st).*1))).
  - apply lookup_lt_Some in Hi. unfold batch_init.
    destruct (length jobs); [lia |]. simpl.
    repeat split; auto. apply not_elem_of_nil.
  - intros st st' Hrun (Hex & Hres & Haw) Hstep.
    pose proof (step_accounted w slots jobs handler st st' Hstep
                  (run_accounted w slots jobs handler log st Hrun)) as Hacc'.
    destruct Hstep as [st j q _ _ _ | st j a _ Hj Ha _]; [exact (conj Hex (conj Hres Haw)) |].
    pose proof (accounted_length jobs _ Hacc') as Hlen.
    destruct (on_settle_shape jobs handler st j (job_outcome w a)) as (Eq & Ea & Eo).
    pose proof (accounted_elem jobs _ i Hacc' (lookup_lt_Some _ _ _ Hi)) as Hel.
    rewrite Eq, Ea, Eo in Hlen, Hel. clear Hacc' Eq Ea Eo.
    unfold on_settle. destruct (awaiting st) eqn:Eaw.
    + destruct Haw as [Hc Hni]. destruct (decide (j = i)) as [-> | Hne].
      * rewrite Hi in Ha. injection Ha as <-. rewrite Hfail. simpl.
        rewrite exited_app, Hex, Hhandler, Hc, fmap_app, elem_of_app. simpl.
        repeat split; auto. right. apply elem_of_cons. by left.
      * destruct (Hothers j a Hne Ha) as [v Hv]. rewrite Hv in *.
        assert (i ∉ (outcomes st ++ [(j, Fulfilled v)]).*1) as Hni'.
        { rewrite fmap_app, elem_of_app. simpl. intros [H | H]; [done |].
          apply list_elem_of_singleton in H. congruence. }
        assert (Nat.eqb (length (outcomes st ++ [(j, Fulfilled v)])) (length jobs)
                = false) as ->.
        { apply Nat.eqb_neq. destruct Hel as [H | [H | H]].
          - destruct (queue st); [inversion H | simpl in Hlen; lia].
          - destruct (filter _ (active st)); [inversion H | simpl in Hlen; lia].
          - contradiction. }
        simpl. auto.
    + destruct Haw as [Hc Hin]. simpl. repeat split; auto.
      rewrite fmap_app, elem_of_app. by left.
Qed.

End OneFailure.

(** A batch in which every download is fulfilled. *)
Section AllFulfilled.

Variables (w : World) (slots : Slots) (jobs : list DownloadArgs).
Variables (handler : Err -> list Effect) (log : list Effect).

Hypothesis Hall :
  forall j a, jobs !! j = Some a -> exists v, job_outcome w a = Fulfilled v.

Lemma values_in_order_length n os : length (values_in_order n os) = n.
Proof. unfold values_in_order. by rewrite length_map, length_seq. Qed.

Lemma all_fulfilled_run st :
  rtc (step w slots jobs handler) (batch_init log (length jobs)) st ->
  if awaiting st
  then console st = log /\ result st = None
       /\ (length (outcomes st) < length jobs)%nat
  else exists r, result st = Some r /\ length r = length jobs
                 /\ console st = log ++ finished r
                 /\ length (outcomes st) = length jobs.
Proof.
  revert st.
  apply (run_invariant w slots jobs handler log
           (fun st =>
              if awaiting st
              then console st = log /\ result st = None
                   /\ (length (outcomes st) < length jobs)%nat
              else exists r, result st = Some r /\ length r = length jobs
                             /\ console st = log ++ finished r
                             /\ length (outcomes st) = length jobs)).
  - unfold batch_init. destruct (length jobs) eqn:En; simpl.
    + exists []. auto.
    + repeat split; auto. lia.
  - intros st st' _ IH Hstep.
    destruct Hstep as [st j q _ _ _ | st j a Hrun Hj Ha _]; [exact IH |].
    unfold on_settle. destruct (awaiting st) eqn:Eaw.
    + destruct IH as (Hc & Hres & Hlt).
      destruct (Hall j a Ha) as [v ->].
      destruct (Nat.eqb_spec (length (outcomes st ++ [(j, Fulfilled v)]))
                  (length jobs)) as [Heq | Hne]; simpl.
      * eexists. rewrite values_in_order_length, Hc. auto.
      * rewrite length_app in Hne |- *. simpl in *. repeat split; auto. lia.
    + destruct IH as (r & Hres & Hr & Hc & Hlen).
      rewrite Hc, exited_app in Hrun. simpl in Hrun.
      rewrite orb_true_r in Hrun. discriminate.
Qed.

End AllFulfilled.

(* ================================================================== *)
(** * [main]: from the [try] block to the batch *)

(** What is known when the [try] block reaches the [await]. *)
Lemma main_try_awaiting w fs cm fs' log slots jobs :
  main_try w fs cm = Awaiting fs' log slots jobs ->
  exists p dir r,
    getPLaylist w (Some (link cm)) = Ok p
    /\ dir = (if titleDir cm
              then path_join (output cm) (sanitize w (playlist_title p))
              else output cm)
    /\ mkDirByPathSync fs dir = (fs', Ok r)
    /\ pLimit (concurrency cm) = Ok slots
    /\ jobs = scheduled w cm p dir
    /\ exited log = false.
Proof.
  unfold main_try. intros H.
  destruct (getPLaylist w (Some (link cm))) as [p | err]; [| discriminate].
  destruct (mkDirByPathSync fs _) as [fs1 [r | err]] eqn:Emk; [| discriminate].
  destruct (pLimit (concurrency cm)) as [sl | err]; [| discriminate].
  injection H as <- <- <- <-.
  exists p, (if titleDir cm
             then path_join (output cm) (sanitize w (playlist_title p))
             else output cm), r.
  repeat split; auto.
Qed.

Lemma pLimit_has_slot c slots : pLimit c = Ok slots -> has_free_slot slots [] = true.
Proof.
  destruct c as [| | | z]; simpl; try discriminate.
  - intros [= <-]. reflexivity.
  - destruct (Z.leb_spec 1 z); [| discriminate]. intros [= <-].
    simpl. apply Nat.ltb_lt. lia.
Qed.

Lemma pLimit_bounded k slots :
  1 <= k -> pLimit (IInt k) = Ok slots -> slots = Bounded (Z.to_nat k).
Proof.
  intros Hk. simpl. destruct (Z.leb_spec 1 k); [| lia]. by intros [= <-].
Qed.

(** The states of a run, seen from the machine of its [try] block. *)
Lemma reachable_run w fs cm st :
  reachable w fs cm st ->
  exists fs' log slots jobs,
    main_try w fs cm = Awaiting fs' log slots jobs
    /\ rtc (step w slots jobs (main_catch w fs' cm))
           (batch_init log (length jobs)) st.
Proof.
  unfold reachable, main_init, main_step.
  destruct (main_try w fs cm) as [? ? ? | fs' log slots jobs].
  - intros (st0 & [=] & _).
  - intros (st0 & [= <-] & Hrun). eauto 10.
Qed.

(** An error whose code is not 404 is printed and nothing else happens. *)
Lemma main_catch_other w fs cm error :
  code_loose_eq (code error) 404 = false ->
  main_catch w fs cm error = [ConsoleError "Error: " error].
Proof. unfold main_catch. by intros ->. Qed.

(* ================================================================== *)
(** * The limiter bounds the running downloads *)

(** C2.  With a configured concurrency [k >= 1], in every state a run of
    [main] can reach, at most [k] jobs hold a slot of the limiter. *)
Theorem running_jobs_within_concurrency w fs cm k st :
  concurrency cm = IInt k -> 1 <= k ->
  reachable w fs cm st ->
  Z.of_nat (length (active st)) <= k.
Proof.
  intros Hc Hk Hreach.
  apply reachable_run in Hreach as (fs' & log & slots & jobs & Htry & Hrun).
  apply main_try_awaiting in Htry as (p & dir & r & _ & _ & _ & Hlimit & _ & _).
  rewrite Hc in Hlimit. apply pLimit_bounded in Hlimit; [| exact Hk].
  pose proof (run_active_bound w slots jobs _ log (Z.to_nat k) st Hlimit Hrun).
  lia.
Qed.

Lemma try_five_two_slots :
  main_try (playlist_world five_playlist) home_fs cm_two_slots
  = Awaiting home_fs log_five (Bounded 2)
             [job "A"; job "B"; job "C"; job "D"; job "E"].
Proof. vm_compute. reflexivity. Qed.

Lemma two_of_five_reachable :
  reachable (playlist_world five_playlist) home_fs cm_two_slots two_of_five_running.
Proof.
  unfold reachable, main_init, main_step. rewrite try_five_two_slots.
  eexists. split; [reflexivity |].
  eapply rtc_l; [apply (step_start _ _ _ _ _ 0%nat [1; 2; 3; 4]%nat); reflexivity |].
  eapply rtc_l; [apply (step_start _ _ _ _ _ 1%nat [2; 3; 4]%nat); reflexivity |].
  apply rtc_refl.
Defined.

Lemma running_jobs_within_concurrency_witness :
  Z.of_nat (length (active two_of_five_running)) <= 2.
Proof.
  apply (running_jobs_within_concurrency
           (playlist_world five_playlist) home_fs cm_two_slots 2
           two_of_five_running).
  - reflexivity.
  - lia.
  - exact two_of_five_reachable.
Defined.

(* ================================================================== *)
(** * One failing job *)

(** C3, as amended.  In a batch where exactly one job is rejected, by an
    error whose code is not 404: the process is never left by the
    orchestrator; no result array is ever produced; every job stays queued,
    running or settled with the outcome of its own download; the batch can
    always be run on until every job has settled; and once the failing job
    has settled the console ends with the report of its error. *)
Theorem one_failure_is_reported_siblings_go_on w fs cm i ai e st :
  submitted (main_try w fs cm) !! i = Some ai ->
  job_outcome w ai = Rejected e ->
  code_loose_eq (code e) 404 = false ->
  (forall j a, j ≠ i -> submitted (main_try w fs cm) !! j = Some a ->
               exists v, job_outcome w a = Fulfilled v) ->
  reachable w fs cm st ->
  exited (console st) = false
  /\ result st = None
  /\ (forall j, (j < length (submitted (main_try w fs cm)))%nat ->
        j ∈ queue st \/ j ∈ active st
        \/ exists a, submitted (main_try w fs cm) !! j = Some a
                     /\ (j, job_outcome w a) ∈ outcomes st)
  /\ (exists st', rtc (main_step w fs cm) st st'
                  /\ all_settled (length (submitted (main_try w fs cm))) st'
                  /\ exited (console st') = false)
  /\ (i ∈ (outcomes st).*1 ->
      exists log, console st = log ++ [ConsoleError "Error: " e]).
Proof.
  intros Hi Hfail Hcode Hothers Hreach.
  apply reachable_run in Hreach as (fs' & log & slots & jobs & Htry & Hrun).
  unfold main_step. rewrite Htry in *. simpl in Hi, Hothers |- *.
  apply main_try_awaiting in Htry as (p & dir & r & _ & _ & _ & Hlimit & _ & Hlog).
  pose proof (main_catch_other w fs' cm e Hcode) as Hcatch.
  assert (forall st1,
             rtc (step w slots jobs (main_catch w fs' cm))
                 (batch_init log (length jobs)) st1 ->
             exited (console st1) = false /\ result st1 = None
             /\ (if awaiting st1
                 then console st1 = log /\ i ∉ (outcomes st1).*1
                 else console st1 = log ++ main_catch w fs' cm e
                      /\ i ∈ (outcomes st1).*1)) as Hinv.
  { intros st1 Hrun1.
    apply (one_failure_run w slots jobs (main_catch w fs' cm) log i ai e
             Hi Hfail Hothers Hlog); [by rewrite Hcatch | exact Hrun1]. }
  destruct (Hinv st Hrun) as (Hex & Hres & Haw).
  pose proof (run_accounted _ _ _ _ _ _ Hrun) as Hacc.
  pose proof (run_own_outcomes _ _ _ _ _ _ Hrun) as Hown.
  repeat split; auto.
  - intros j Hj. destruct (accounted_elem jobs st j Hacc Hj) as [H | [H | H]]; auto.
    right; right. apply list_elem_of_fmap in H as ([j' o] & -> & Hin). simpl.
    destruct (Hown _ _ Hin) as (a & Ha & ->). eauto.
  - destruct (run_to_the_end w slots jobs (main_catch w fs' cm) st) as (st' & Hgo & Hend).
    + eapply pLimit_has_slot; eauto.
    + intros j a Ha. destruct (decide (j = i)) as [-> | Hne].
      * rewrite Hi in Ha. injection Ha as <-. by rewrite Hfail.
      * destruct (Hothers j a Hne Ha) as [v ->]. reflexivity.
    + exact Hacc.
    + destruct (Hinv st' (transitivity Hrun Hgo)) as (Hex' & _).
      exists st'. split; [exact Hgo |]. split; [| exact Hex'].
      destruct Hend as [Hend | Hend]; [exact Hend | congruence].
  - intros Hin. destruct (awaiting st).
    + destruct Haw as [_ Hni]. contradiction.
    + destruct Haw as [-> _]. rewrite Hcatch. eauto.
Qed.

Lemma try_two_flaky :
  main_try (flaky_world two_playlist) home_fs cm_two_slots
  = Awaiting home_fs log_two (Bounded 2) [job "A"; job "B"].
Proof. vm_compute. reflexivity. Qed.

Lemma after_failure_of_B_reachable :
  reachable (flaky_world two_playlist) home_fs cm_two_slots after_failure_of_B.
Proof.
  unfold reachable, main_init, main_step. rewrite try_two_flaky.
  eexists. split; [reflexivity |].
  eapply rtc_l; [apply (step_start _ _ _ _ _ 0%nat [1%nat]); reflexivity |].
  eapply rtc_l; [apply (step_start _ _ _ _ _ 1%nat []); reflexivity |].
  eapply rtc_l.
  { apply (step_settle _ _ _ _ _ 1%nat (job "B")); [reflexivity | | reflexivity ..].
    simpl. apply elem_of_cons. right. apply elem_of_cons. by left. }
  apply rtc_refl.
Defined.

Lemma after_A_and_B_reachable :
  reachable (flaky_world two_playlist) home_fs cm_two_slots after_A_and_B.
Proof.
  destruct after_failure_of_B_reachable as (st0 & Hinit & Hrun).
  exists st0. split; [exact Hinit |].
  eapply rtc_r; [exact Hrun |].
  unfold main_step. rewrite try_two_flaky.
  apply (step_settle (flaky_world two_playlist) (Bounded 2) [job "A"; job "B"]
           (main_catch (flaky_world two_playlist) home_fs cm_two_slots)
           after_failure_of_B 0%nat (job "A"));
    [reflexivity | | reflexivity ..].
  simpl. apply elem_of_cons. by left.
Defined.

Lemma one_failure_is_reported_siblings_go_on_witness :
  exited (console after_failure_of_B) = false
  /\ result after_failure_of_B = None
  /\ (exists st',
        rtc (main_step (flaky_world two_playlist) home_fs cm_two_slots)
            after_failure_of_B st'
        /\ all_settled 2 st' /\ exited (console st') = false).
Proof.
  destruct (one_failure_is_reported_siblings_go_on
              (flaky_world two_playlist) home_fs cm_two_slots
              1%nat (job "B") forbidden after_failure_of_B)
    as (Hex & Hres & _ & Hgo & _).
  - rewrite try_two_flaky. reflexivity.
  - reflexivity.
  - reflexivity.
  - rewrite try_two_flaky. intros [| [| j]] a Hne [= <-]; [| congruence].
    eexists. reflexivity.
  - exact after_failure_of_B_reachable.
  - split; [exact Hex | split; [exact Hres |]].
    rewrite try_two_flaky in Hgo. exact Hgo.
Defined.

(** C3, as stated, fails.  Two jobs, B is rejected with a 403: the run in
    which B fails first and A finishes afterwards ends with both jobs
    settled and no result array, only the report of the error; and no state
    of any run holds a result with two entries. *)
Lemma one_failure_leaves_no_result :
  reachable (flaky_world two_playlist) home_fs cm_two_slots after_A_and_B
  /\ all_settled 2 after_A_and_B
  /\ result after_A_and_B = None
  /\ console after_A_and_B = log_two ++ [ConsoleError "Error: " forbidden]
  /\ ~ (exists st r,
          reachable (flaky_world two_playlist) home_fs cm_two_slots st
          /\ result st = Some r /\ length r = 2%nat).
Proof.
  split; [exact after_A_and_B_reachable |].
  repeat split.
  intros (st & r & Hreach & Hres & _).
  apply reachable_run in Hreach as (fs' & log & slots & jobs & Htry & Hrun).
  rewrite try_two_flaky in Htry. injection Htry as <- <- <- <-.
  destruct (one_failure_run (flaky_world two_playlist) (Bounded 2)
              [job "A"; job "B"]
              (main_catch (flaky_world two_playlist) home_fs cm_two_slots)
              log_two 1%nat (job "B") forbidden) with (st := st)
    as (_ & Hnone & _); try reflexivity; try exact Hrun.
  - intros [| [| j]] a Hne [= <-]; [| congruence]. eexists. reflexivity.
  - congruence.
Qed.

(* ================================================================== *)
(** * The item downloader settles *)

Lemma on_event_promise a d ev :
  promise (on_event a d ev)
  = match ev with
    | EvEnd => resolve ("Finished downloading " ++ title a) (promise d)
    | EvError err => reject err (promise d)
    | _ => promise d
    end.
Proof. destruct ev; simpl; try reflexivity. by destruct (response_listener d). Qed.

(** A settled promise is never changed by a later event. *)
Lemma events_keep_settled a events d :
  settled (promise d) = true ->
  promise (fold_left (on_event a) events d) = promise d.
Proof.
  revert d. induction events as [| ev events IH]; intros d Hd; [reflexivity |].
  simpl. rewrite IH.
  - rewrite on_event_promise. destruct ev, (promise d); simpl in *; congruence.
  - rewrite on_event_promise. destruct ev, (promise d); simpl in *; congruence.
Qed.

Lemma events_from_pending a events d :
  promise d = Pending ->
  promise (fold_left (on_event a) events d) = outcome_of_events a events.
Proof.
  revert d. induction events as [| ev events IH]; intros d Hd; [exact Hd |].
  simpl. unfold outcome_of_events. simpl.
  destruct (terminal ev) eqn:Et.
  - rewrite events_keep_settled;
      rewrite on_event_promise, Hd; destruct ev; simpl in *; congruence.
  - apply IH. rewrite on_event_promise, Hd. destruct ev; simpl in *; congruence.
Qed.

(** The promise of [downloadVideo] is decided by the first ['end'] or
    ['error'] of the stream, whatever else is emitted before or after: it
    is fulfilled with the completion message or rejected with the error. *)
Lemma downloadVideo_promise events sp a :
  promise (downloadVideo events sp a) = outcome_of_events a events.
Proof. unfold downloadVideo. by apply events_from_pending. Qed.

(** In the newest script every stream that ends or fails settles its job,
    and in one way only. *)
Lemma downloadVideo_settles events sp a :
  existsb terminal events = true ->
  (exists v, promise (downloadVideo events sp a) = Fulfilled v)
  \/ (exists err, promise (downloadVideo events sp a) = Rejected err).
Proof.
  rewrite downloadVideo_promise. unfold outcome_of_events. intros H.
  destruct (List.find terminal events) as [ev |] eqn:Ef.
  - apply find_some in Ef as [_ Ht]. destruct ev; simpl in Ht; try discriminate; eauto.
  - apply existsb_exists in H as (ev & Hin & Ht).
    by rewrite (find_none _ _ Ef ev Hin) in Ht.
Qed.

(** The outcome of a job does not depend on the spinners it shares. *)
Lemma job_outcome_events w a :
  job_outcome w a = outcome_of_events a (ytdl w (url a)).
Proof. apply downloadVideo_promise. Qed.

(** C4, at the failing input.  In the first script of [index.js] a stream
    that answers and then fails leaves the promise of [downloadVideo]
    pending for ever: no listener rejects it, the error is thrown by the
    emitter. *)
Theorem rev1_stream_error_leaves_job_pending sp a now err :
  promise (fst (Rev1.downloadVideo [EvResponse now; EvError err] sp a)) = Pending
  /\ snd (Rev1.downloadVideo [EvResponse now; EvError err] sp a) = Some err
  /\ promise (downloadVideo [EvResponse now; EvError err] sp a) = Rejected err.
Proof. repeat split. Qed.

(* ================================================================== *)
(** * The progress line *)

Lemma toFixed2_special a :
  match a with Fin _ => False | _ => True end ->
  toFixed2 a = "NaN"%string \/ toFixed2 a = "Infinity"%string
  \/ toFixed2 a = "-Infinity"%string.
Proof. destruct a; simpl; tauto. Qed.

(** A quotient by a zero or unknown total is never a finite number, and
    neither is one hundred times it. *)
Lemma percent_of_unknown_total downloaded total :
  zero_or_unknown total = true ->
  match mul (percent_of downloaded total) (of_Z 100) with
  | Fin _ => False
  | _ => True
  end.
Proof.
  unfold zero_or_unknown, percent_of. intros H.
  destruct total as [| | | q]; try discriminate.
  - destruct downloaded; exact I.
  - destruct (qsign q) eqn:Eq; try discriminate.
    destruct downloaded as [| | | d]; simpl; rewrite ?Eq; try exact I.
    destruct (qsign d); exact I.
Qed.

(** C5, as amended.  On a progress tick whose total is zero or unknown the
    line is built by the same formulas as on any other tick: its percentage
    field is the rendering of a division by that total, which reads [NaN],
    [Infinity] or [-Infinity]; there is no other wording for it. *)
Theorem progress_line_with_unknown_total a downloaded total now starttime :
  zero_or_unknown total = true ->
  exists pct,
    (pct = "NaN" \/ pct = "Infinity" \/ pct = "-Infinity")%string
    /\ progress_text a downloaded total now starttime
       = (downloadText a
          ++ ", Completed: " ++ pct ++ "%"
          ++ ", " ++ toFixed2 (megabytes downloaded)
          ++ "MB of " ++ toFixed2 (megabytes total) ++ "MB"
          ++ ", estimated time left: "
          ++ toFixed2 (estimatedDownloadTime (downloadedMinutes now starttime)
                                             (percent_of downloaded total))
          ++ "minutes")%string.
Proof.
  intros H. exists (toFixed2 (mul (percent_of downloaded total) (of_Z 100))).
  split; [| reflexivity].
  apply toFixed2_special. by apply percent_of_unknown_total.
Qed.

Lemma progress_line_with_unknown_total_witness :
  exists pct,
    (pct = "NaN" \/ pct = "Infinity" \/ pct = "-Infinity")%string
    /\ progress_text song (of_Z 4096) NaN 60000 (Some 0)
       = ("Downloading Song, Completed: " ++ pct
          ++ "%, 0.00MB of NaNMB, estimated time left: NaNminutes")%string.
Proof.
  destruct (progress_line_with_unknown_total song (of_Z 4096) NaN 60000 (Some 0))
    as (pct & Hpct & Hline); [reflexivity |].
  exists pct. split; [exact Hpct |]. rewrite Hline. reflexivity.
Defined.

(** C5, as stated, fails.  A tick that reports zero of zero bytes renders a
    line with [NaN] in it and without any mark of unavailability; with
    bytes downloaded of a zero total the percentage reads [Infinity]. *)
Lemma progress_line_shows_NaN :
  progress_text song (of_Z 0) (of_Z 0) 60000 (Some 0)
  = "Downloading Song, Completed: NaN%, 0.00MB of 0.00MB, estimated time left: NaNminutes"%string
  /\ contains "NaN" (progress_text song (of_Z 0) (of_Z 0) 60000 (Some 0)) = true
  /\ contains "unavailable" (progress_text song (of_Z 0) (of_Z 0) 60000 (Some 0)) = false
  /\ progress_text song (of_Z 4096) (of_Z 0) 60000 (Some 0)
     = "Downloading Song, Completed: Infinity%, 0.00MB of 0.00MB, estimated time left: -1.00minutes"%string.
Proof. vm_compute. repeat split; reflexivity. Qed.

(* ================================================================== *)
(** * Resolution errors and the fallback to a single video *)

Lemma getPLaylist_non_empty w l :
  l ≠ ""%string ->
  getPLaylist w (Some l)
  = match ytpl w l with
    | Ok playlist => Ok playlist
    | Fail err => Fail (MkErrWith (CNum 404) "Playlist link or id not found" err)
    end.
Proof.
  intros Hl. unfold getPLaylist, falsy.
  destruct (String.eqb_spec l ""); [contradiction | reflexivity].
Qed.

Lemma main_of_rejected_link w fs cm error :
  getPLaylist w (Some (link cm)) = Fail error ->
  main w fs cm = Ended (main_catch w fs cm error).
Proof. unfold main, main_try. by intros ->. Qed.

(** The number of downloads started outside the limiter. *)
Lemma main_catch_direct_downloads w fs cm error :
  (direct_downloads (main_catch w fs cm error) <= 1)%nat.
Proof.
  unfold direct_downloads, main_catch, single_video_failed.
  destruct (code_loose_eq _ _); [| simpl; lia].
  destruct (getBasicInfo w (link cm)); [| simpl; lia].
  destruct (mkDirByPathSync fs (output cm)) as [? [? | ?]]; [| simpl; lia].
  destruct (job_outcome w _); simpl; lia.
Qed.

(** In the newest script a link the playlist resolver does not find is
    looked up once as a single video; when that lookup and the directory
    setup succeed, one download is started directly, under the raw title of
    the video, and the limiter receives nothing. *)
Lemma not_found_runs_one_direct_download w fs cm err info fs' r :
  link cm ≠ ""%string ->
  ytpl w (link cm) = Fail err ->
  getBasicInfo w (link cm) = Ok info ->
  mkDirByPathSync fs (output cm) = (fs', Ok r) ->
  submitted (main_try w fs cm) = []
  /\ exists rest,
      main w fs cm
      = Ended (ConsoleLog "Playlist not found. Trying to download video instead."
               :: GetBasicInfo (link cm)
               :: MkDirByPath (output cm)
               :: Direct {| title := vd_title info; url := video_url info;
                            outputDir := output cm |}
               :: rest)
      /\ (rest = [] \/ exists e, rest = single_video_failed e).
Proof.
  intros Hl Hy Hinfo Hmk.
  pose proof (getPLaylist_non_empty w (link cm) Hl) as Hg. rewrite Hy in Hg.
  split.
  - unfold main_try. by rewrite Hg.
  - rewrite (main_of_rejected_link _ _ _ _ Hg). unfold main_catch. simpl.
    rewrite Hinfo, Hmk. eexists. split; [reflexivity |].
    destruct (job_outcome w _); eauto.
Qed.

(** C10.  For a non-empty link every failure of the playlist resolver,
    whatever the error, becomes a rejection with code 404 that carries it,
    and [main] answers it with the single-video fallback; an empty link is
    rejected with code 400 and a missing one too, and [main] only reports
    that error. *)
Theorem resolver_failures_become_404 w fs cm :
  (link cm ≠ ""%string ->
   forall err, ytpl w (link cm) = Fail err ->
     getPLaylist w (Some (link cm))
     = Fail (MkErrWith (CNum 404) "Playlist link or id not found" err)
     /\ exists rest,
         main w fs cm
         = Ended (ConsoleLog "Playlist not found. Trying to download video instead."
                  :: GetBasicInfo (link cm) :: rest))
  /\ (link cm = ""%string ->
      getPLaylist w (Some (link cm))
      = Fail (MkErr (CNum 400) "No playlist link provided")
      /\ main w fs cm
         = Ended [ConsoleError "Error: "
                    (MkErr (CNum 400) "No playlist link provided")])
  /\ getPLaylist w None = Fail (MkErr (CNum 400) "No playlist link provided").
Proof.
  repeat split.
  - rewrite getPLaylist_non_empty by assumption. by rewrite H0.
  - pose proof (getPLaylist_non_empty w (link cm) H) as Hg. rewrite H0 in Hg.
    rewrite (main_of_rejected_link _ _ _ _ Hg). unfold main_catch. simpl.
    eexists. reflexivity.
  - by rewrite H.
  - rewrite (main_of_rejected_link w fs cm
               (MkErr (CNum 400) "No playlist link provided"));
      [reflexivity | by rewrite H].
Qed.

Lemma resolver_failures_become_404_witness :
  getPLaylist video_world (Some "v1"%string) = Fail not_found
  /\ exists rest,
      main video_world home_fs (cm_default "v1")
      = Ended (ConsoleLog "Playlist not found. Trying to download video instead."
               :: GetBasicInfo "v1" :: rest).
Proof.
  destruct (resolver_failures_become_404 video_world home_fs (cm_default "v1"))
    as (Hfound & _ & _).
  exact (Hfound ltac:(discriminate) unresolved eq_refl).
Defined.

(** C6, at the failing input.  In the first script of [index.js] a link the
    playlist resolver does not find is only printed: the single video is
    neither looked up nor downloaded.  The newest script, on the same
    input, looks it up and starts the one download. *)
Theorem rev1_not_found_downloads_nothing :
  Rev1.main video_world home_fs (cm_default "v1")
  = Some [ConsoleDebug "Playlist not found. Trying to download video instead."
                       not_found]
  /\ main video_world home_fs (cm_default "v1")
     = Ended [ConsoleLog "Playlist not found. Trying to download video instead.";
              GetBasicInfo "v1"; MkDirByPath "./"; Direct single_video].
Proof. vm_compute. split; reflexivity. Qed.

(* ================================================================== *)
(** * Exit status *)

(** A batch in which every job is fulfilled ends, once all have settled,
    with the summary, exit status 0 and one value per job. *)
Lemma full_batch_exits_0 w fs cm st :
  (forall j a, submitted (main_try w fs cm) !! j = Some a ->
               exists v, job_outcome w a = Fulfilled v) ->
  reachable w fs cm st ->
  all_settled (length (submitted (main_try w fs cm))) st ->
  exit_code (console st) = 0
  /\ exited (console st) = true
  /\ exists r, result st = Some r
               /\ length r = length (submitted (main_try w fs cm)).
Proof.
  intros Hall Hreach Hset.
  apply reachable_run in Hreach as (fs' & log & slots & jobs & Htry & Hrun).
  rewrite Htry in *. simpl in *.
  apply main_try_awaiting in Htry as (_ & _ & _ & _ & _ & _ & _ & _ & Hlog).
  pose proof (all_fulfilled_run w slots jobs _ log Hall st Hrun) as H.
  unfold all_settled in Hset. destruct (awaiting st).
  - destruct H as (_ & _ & Hlt). lia.
  - destruct H as (r & Hres & Hr & Hc & _). rewrite Hc.
    rewrite exit_code_app, exited_app by exact Hlog. simpl.
    rewrite orb_true_r. eauto.
Qed.

(** A batch in which every job is fulfilled can always be run to that end:
    the summary is printed and the process leaves with status 0. *)
Lemma full_batch_completes w fs cm st :
  (forall j a, submitted (main_try w fs cm) !! j = Some a ->
               exists v, job_outcome w a = Fulfilled v) ->
  reachable w fs cm st ->
  exists st' r,
    rtc (main_step w fs cm) st st'
    /\ result st' = Some r
    /\ length r = length (submitted (main_try w fs cm))
    /\ exited (console st') = true
    /\ exit_code (console st') = 0.
Proof.
  intros Hall Hreach.
  apply reachable_run in Hreach as (fs' & log & slots & jobs & Htry & Hrun).
  unfold main_step. rewrite Htry in *. simpl in *.
  apply main_try_awaiting in Htry as (_ & _ & _ & _ & _ & _ & Hlimit & _ & Hlog).
  destruct (run_to_the_end w slots jobs (main_catch w fs' cm) st) as (st' & Hgo & Hend).
  - eapply pLimit_has_slot; eauto.
  - intros j a Ha. destruct (Hall j a Ha) as [v ->]. reflexivity.
  - eapply run_accounted; eauto.
  - pose proof (all_fulfilled_run w slots jobs _ log Hall st'
                  (transitivity Hrun Hgo)) as H.
    destruct (awaiting st').
    + destruct H as (Hc & _ & Hlt). exfalso.
      destruct Hend as [Hend | Hend]; [unfold all_settled in Hend; lia |].
      rewrite Hc in Hend. congruence.
    + destruct H as (r & Hres & Hr & Hc & _). exists st', r.
      rewrite Hc, exit_code_app, exited_app by exact Hlog. simpl.
      rewrite orb_true_r. auto.
Qed.

(** Whatever fails inside the fallback ends the process with status 1. *)
Lemma failed_fallback_exits_1 w fs cm error e :
  code_loose_eq (code error) 404 = true ->
  (getBasicInfo w (link cm) = Fail e
   \/ (exists info, getBasicInfo w (link cm) = Ok info)
      /\ exists fs', mkDirByPathSync fs (output cm) = (fs', Fail e)) ->
  exit_code (main_catch w fs cm error) = 1.
Proof.
  unfold main_catch. intros -> [-> | [[info ->] [fs' ->]]]; reflexivity.
Qed.

(** An error thrown before the jobs are scheduled, with a code other than
    404, is printed and the script runs to its end: exit status 0. *)
Lemma reported_error_exits_0 w fs cm fs' log e :
  main_try w fs cm = Threw fs' log e ->
  code_loose_eq (code e) 404 = false ->
  main w fs cm = Ended (log ++ [ConsoleError "Error: " e])
  /\ exit_code (run_log (main w fs cm)) = 0.
Proof.
  intros Htry Hcode. unfold main. rewrite Htry, main_catch_other by exact Hcode.
  split; [reflexivity |]. simpl.
  assert (exited log = false) as Hlog.
  { unfold main_try in Htry.
    destruct (getPLaylist w (Some (link cm))); [| by injection Htry as <- <- <-].
    destruct (mkDirByPathSync fs _) as [? [? | ?]]; [| by injection Htry as <- <- <-].
    destruct (pLimit (concurrency cm)); [discriminate | by injection Htry as <- <- <-]. }
  by rewrite exit_code_app.
Qed.

(** C7, at the failing inputs.  The playlist is found and the output
    directory cannot be created: [main] prints the error, schedules nothing
    and runs to its end, so the process leaves with status 0, not 1.  The
    same branch answers an empty link.  Only the failures inside the
    fallback reach [process.exit(1)]. *)
Theorem directory_failure_exits_0 :
  main (playlist_world five_playlist) locked_fs cm_out
  = Ended [ConsoleLog "Playlist Mix Found. Total Items: 5";
           MkDirByPath "out";
           ConsoleError "Error: " (fs_error "EACCES" ["home"; "u"; "out"]%string)]
  /\ submitted (main_try (playlist_world five_playlist) locked_fs cm_out) = []
  /\ exit_code (run_log (main (playlist_world five_playlist) locked_fs cm_out)) = 0
  /\ main (playlist_world five_playlist) home_fs (cm_default "")
     = Ended [ConsoleError "Error: " no_link]
  /\ exit_code (run_log (main (playlist_world five_playlist) home_fs (cm_default "")))
     = 0.
Proof. vm_compute. repeat split; reflexivity. Qed.

(* ================================================================== *)
(** * File names *)

Lemma on_event_destination a d ev : destination (on_event a d ev) = destination d.
Proof. destruct ev; simpl; try reflexivity. by destruct (response_listener d). Qed.

(** The file a download writes is chosen when it starts. *)
Lemma downloadVideo_destination events sp a :
  destination (downloadVideo events sp a)
  = path_join (outputDir a) (title a ++ ".mp4").
Proof.
  unfold downloadVideo.
  assert (forall d, destination (fold_left (on_event a) events d) = destination d) as H.
  { induction events as [| ev events IH]; intros d; [reflexivity |].
    simpl. by rewrite IH, on_event_destination. }
  by rewrite H.
Qed.

Lemma slice_subseteq {A : Type} (l : list A) (start end_ : ival) :
  slice l start end_ ⊆ l.
Proof.
  unfold slice. etransitivity; [apply subseteq_take | apply subseteq_drop].
Qed.

(** On the playlist path every job carries the sanitized title of an item
    of the playlist and writes [outputDir/sanitize(title).mp4]. *)
Lemma scheduled_jobs_are_sanitized w cm p dir a events sp :
  a ∈ scheduled w cm p dir ->
  exists it, it ∈ items p
             /\ title a = sanitize w (item_title it)
             /\ destination (downloadVideo events sp a)
                = path_join dir (sanitize w (item_title it) ++ ".mp4").
Proof.
  unfold scheduled. intros Ha.
  apply list_elem_of_fmap in Ha as (it & -> & Hit).
  exists it. split; [by eapply slice_subseteq |].
  split; [reflexivity |]. by rewrite downloadVideo_destination.
Qed.

(** C9, at the failing input.  The link names a single video titled
    [AC/DC - Live].  The fallback hands the raw title to [downloadVideo],
    which writes [Live.mp4] inside a directory [AC/DC - ...], where the
    sanitized name is [ACDC - Live.mp4]; the same title reaching the
    playlist path is sanitized. *)
Theorem fallback_title_is_not_sanitized :
  main video_world home_fs (cm_default "v1")
  = Ended [ConsoleLog "Playlist not found. Trying to download video instead.";
           GetBasicInfo "v1"; MkDirByPath "./"; Direct single_video]
  /\ title single_video = "AC/DC - Live"%string
  /\ destination (downloadVideo (ytdl video_world (url single_video)) ∅ single_video)
     = "AC/DC - Live.mp4"%string
  /\ path_join "./" (sanitize video_world "AC/DC - Live" ++ ".mp4")
     = "ACDC - Live.mp4"%string
  /\ map title
         (scheduled video_world (cm_default "PL1")
            {| playlist_title := "Mix"; total_items := INaN;
               estimated_items := IInt 1;
               items := [{| item_title := "AC/DC - Live";
                            item_url := "https://youtu.be/v1" |}] |}
            "./")
     = ["ACDC - Live"%string].
Proof. vm_compute. repeat split; reflexivity. Qed.

(* ================================================================== *)
(** * The output directory *)

Lemma split_nonempty s : split s ≠ [].
Proof.
  destruct s as [| c s]; simpl; [done |].
  destruct (Ascii.eqb c sep); [done |]. by destruct (split s).
Qed.

Lemma code_strict_eq_true c s : code_strict_eq c s = true <-> c = CStr s.
Proof.
  destruct c as [| n | s']; simpl; try (split; [discriminate | congruence]).
  rewrite String.eqb_eq. split; congruence.
Qed.

Lemma caught_iff_swallowed c :
  existsb (code_strict_eq c) ["EACCES"; "EPERM"; "EISDIR"]%string = true
  <-> swallowed c.
Proof.
  unfold swallowed. simpl. rewrite !orb_true_iff, !code_strict_eq_true.
  intuition discriminate.
Qed.




(** The [catch] block of the walk, case by case. *)
Lemma mkdir_callback_cases fs targetDir parentDir childDir :
  let curDir := path_resolve3 (cwd fs) parentDir childDir in
  fst (mkdir_callback fs targetDir parentDir childDir) = fst (mkdirSync fs curDir)
  /\ match snd (mkdirSync fs curDir) with
     | None => snd (mkdir_callback fs targetDir parentDir childDir) = Ok curDir
     | Some err =>
         (code err = CStr "EEXIST" ->
          snd (mkdir_callback fs targetDir parentDir childDir) = Ok curDir)
         /\ (swallowed (code err) -> curDir ≠ path_resolve (cwd fs) targetDir ->
             snd (mkdir_callback fs targetDir parentDir childDir) = Ok curDir)
         /\ (code err ≠ CStr "EEXIST" ->
             ~ (swallowed (code err) /\ curDir ≠ path_resolve (cwd fs) targetDir) ->
             exists e, snd (mkdir_callback fs targetDir parentDir childDir) = Fail e)
     end.
Proof.
  intros curDir. unfold mkdir_callback. fold curDir.
  destruct (mkdirSync fs curDir) as [fs' [err |]]; cbn [fst snd]; [| done].
  destruct (code_strict_eq (code err) "EEXIST") eqn:E1.
  { apply code_strict_eq_true in E1. repeat split; auto. intros. contradiction. }
  assert (code err ≠ CStr "EEXIST") as Hne1.
  { intros H. apply code_strict_eq_true in H. congruence. }
  destruct (code_strict_eq (code err) "ENOENT") eqn:E2.
  { apply code_strict_eq_true in E2. split; [reflexivity |]. repeat split.
    - intros; contradiction.
    - intros [H | [H | H]]; congruence.
    - eauto. }
  destruct (existsb (code_strict_eq (code err)) _) eqn:E3.
  - apply caught_iff_swallowed in E3. cbn [negb orb andb].
    destruct (bool_decide_reflect (curDir = path_resolve (cwd fs) targetDir)).
    + split; [reflexivity |]. repeat split; [intros; contradiction.. | eauto].
    + split; [reflexivity |]. repeat split; auto. intros _ H. destruct H. auto.
  - assert (~ swallowed (code err)) as Hns.
    { intros H. apply caught_iff_swallowed in H. congruence. }
    cbn [negb orb andb]. split; [reflexivity |].
    repeat split; [intros; contradiction.. | eauto].
Qed.











(* ================================================================== *)
(** * Further properties of the schedule *)


(** A slice is a run of consecutive elements of its list. *)
Lemma slice_is_run {A : Type} (l : list A) (start end_ : ival) :
  exists before after, l = before ++ slice l start end_ ++ after.
Proof.
  unfold slice.
  set (k := Z.to_nat (relative_index (Z.of_nat (length l)) start)).
  set (c := Z.to_nat _).
  exists (take k l), (drop c (drop k l)).
  by rewrite take_drop, take_drop.
Qed.


(** X1.  Newest script: with an offset that is not negative, a valid limit
    and an estimate that is not below the number of listed items, the jobs
    are the items [offset .. offset + min(limit, count - offset)), in the
    order of the playlist, each under its sanitized title; their number is
    [max(0, min(limit, count - offset))]. *)
Theorem schedule_of_valid_flags w cm p dir o e :
  offset cm = IInt o -> 0 <= o -> valid_limit (limit cm) ->
  estimated_items p = IInt e -> Z.of_nat (length (items p)) <= e ->
  scheduled w cm p dir = map (job_of w dir) (spec_slice (items p) o (limit cm))
  /\ Z.of_nat (length (scheduled w cm p dir))
     = spec_count (length (items p)) o (limit cm).
Proof. apply scheduled_with_covering_estimate. Qed.

Lemma schedule_of_valid_flags_witness :
  scheduled (playlist_world five_playlist) (cm_flags (IInt 1) (IInt 2))
            five_playlist "./"
  = map (job_of (playlist_world five_playlist) "./") [item "B"; item "C"]
  /\ Z.of_nat (length (scheduled (playlist_world five_playlist)
                                 (cm_flags (IInt 1) (IInt 2)) five_playlist "./"))
     = 2.
Proof.
  destruct (schedule_of_valid_flags (playlist_world five_playlist)
              (cm_flags (IInt 1) (IInt 2)) five_playlist "./" 1 5)
    as [Hjobs Hcount]; [reflexivity | lia | simpl; lia | reflexivity | simpl; lia |].
  split; [rewrite Hjobs; reflexivity | rewrite Hcount; reflexivity].
Defined.

(** X2.  Second script of [index.js]: with an offset that is not negative
    and a valid limit, the jobs are the items
    [offset .. offset + min(limit, count - offset)), in the order of the
    playlist, under their raw titles, whatever count the resolver reports. *)
Theorem second_script_schedule_of_valid_flags cm p dir o :
  offset cm = IInt o -> 0 <= o -> valid_limit (limit cm) ->
  Rev2.scheduled cm p dir
  = map (fun it => {| title := item_title it; url := item_url it;
                      outputDir := dir |})
        (spec_slice (items p) o (limit cm)).
Proof. apply rev2_scheduled_is_spec_slice. Qed.

Lemma second_script_schedule_of_valid_flags_witness :
  map title (Rev2.scheduled (cm_flags (IInt 3) IPosInf) under_estimated "./")
  = ["D"; "E"]%string.
Proof.
  rewrite (second_script_schedule_of_valid_flags
             (cm_flags (IInt 3) IPosInf) under_estimated "./" 3);
    [reflexivity | reflexivity | lia | exact I].
Defined.

(** X3.  Whatever the flags and the estimate are (negative, infinite and
    [NaN] included), the jobs of the newest script are a run of consecutive
    items of the playlist, in the order of the playlist: nothing is
    reordered, repeated or taken from elsewhere. *)
Theorem schedule_is_a_run_of_the_playlist w cm p dir :
  exists before run after,
    items p = before ++ run ++ after
    /\ scheduled w cm p dir = map (job_of w dir) run.
Proof.
  destruct (slice_is_run (items p) (offset cm)
              (iadd (offset cm) (actualLimit cm p))) as (before & after & H).
  exists before, (slice (items p) (offset cm) (iadd (offset cm) (actualLimit cm p))),
    after.
  split; [exact H | reflexivity].
Qed.





(** X6.  When the offset lies within the playlist, the limit is valid and
    the estimate equals the number of listed items, the count announced in
    [Downloading only ... videos] is the number of jobs scheduled. *)
Theorem announced_count_is_scheduled_count w cm p dir o :
  offset cm = IInt o -> 0 <= o <= Z.of_nat (length (items p)) ->
  valid_limit (limit cm) ->
  estimated_items p = IInt (Z.of_nat (length (items p))) ->
  actualLimit cm p = IInt (Z.of_nat (length (scheduled w cm p dir))).
Proof.
  intros Ho Hrange Hlim He.
  destruct (scheduled_with_covering_estimate w cm p dir o _ Ho (proj1 Hrange)
              Hlim He ltac:(lia)) as [_ ->].
  unfold actualLimit, spec_count. rewrite Ho, He.
  destruct (limit cm) as [| | | l]; simpl in *; try contradiction; f_equal; lia.
Qed.

Lemma announced_count_is_scheduled_count_witness :
  actualLimit (cm_flags (IInt 1) (IInt 2)) five_playlist = IInt 2.
Proof.
  rewrite (announced_count_is_scheduled_count (playlist_world five_playlist)
             (cm_flags (IInt 1) (IInt 2)) five_playlist "./" 1);
    [reflexivity | reflexivity | simpl; lia | simpl; lia | reflexivity].
Defined.

(* ================================================================== *)
(** * Further properties of the item downloader *)

Lemma find_app_not_before {A : Type} (f : A -> bool) (l1 l2 : list A) :
  forallb (fun x => negb (f x)) l1 = true ->
  List.find f (l1 ++ l2) = List.find f l2.
Proof.
  induction l1 as [| x l1 IH]; simpl; [reflexivity |].
  intros H. apply andb_true_iff in H as [Hx H].
  apply negb_true_iff in Hx. rewrite Hx. auto.
Qed.

Lemma downloadVideo_snoc events ev sp a :
  downloadVideo (events ++ [ev]) sp a = on_event a (downloadVideo events sp a) ev.
Proof. unfold downloadVideo. by rewrite fold_left_app. Qed.

(** X7.  The promise of [downloadVideo] is settled by the first ['end'] or
    ['error'] of the stream and by nothing else: it is fulfilled with the
    completion message or rejected with that error whatever follows, and it
    stays pending while neither has been emitted. *)
Theorem promise_follows_first_terminal_event sp a before ev after :
  forallb (fun e => negb (terminal e)) before = true ->
  terminal ev = true ->
  promise (downloadVideo (before ++ ev :: after) sp a)
  = match ev with
    | EvError err => Rejected err
    | _ => Fulfilled (finished_message a)
    end
  /\ promise (downloadVideo before sp a) = Pending.
Proof.
  intros Hbefore Hev. rewrite !downloadVideo_promise. unfold outcome_of_events.
  rewrite find_app_not_before by exact Hbefore. simpl. rewrite Hev.
  split; [by destruct ev |].
  rewrite <- (app_nil_r before), find_app_not_before by exact Hbefore.
  reflexivity.
Qed.

Lemma promise_follows_first_terminal_event_witness :
  promise (downloadVideo
             ([EvResponse 0; EvProgress (of_Z 1) (of_Z 1) (of_Z 2) 5]
              ++ EvError forbidden :: [EvEnd])
             ∅ song)
  = Rejected forbidden
  /\ promise (downloadVideo [EvResponse 0; EvProgress (of_Z 1) (of_Z 1) (of_Z 2) 5]
                            ∅ song)
     = Pending.
Proof.
  apply (promise_follows_first_terminal_event ∅ song
           [EvResponse 0; EvProgress (of_Z 1) (of_Z 1) (of_Z 2) 5]
           (EvError forbidden) [EvEnd]); reflexivity.
Defined.

Lemma status_after_snoc events ev :
  status_after (events ++ [ev])
  = match ev with
    | EvEnd => Succeeded
    | EvError _ => Failed
    | _ => status_after events
    end.
Proof.
  unfold status_after, last_terminal. rewrite rev_app_distr. simpl.
  by destruct ev.
Qed.

Lemma spinner_after_events events sp a :
  exists txt,
    spinnies (downloadVideo events sp a) !! title a
    = Some {| status := status_after events; text := txt |}.
Proof.
  induction events as [| ev events IH] using rev_ind.
  - eexists. unfold downloadVideo, downloadVideo_start, spinnies_add. simpl.
    apply lookup_insert_eq.
  - destruct IH as [txt IH]. rewrite downloadVideo_snoc, status_after_snoc.
    destruct ev as [now | c dl tot now | | err]; simpl.
    + destruct (response_listener _); eauto.
    + unfold spinnies_update. rewrite lookup_alter_eq, IH. simpl. eauto.
    + unfold spinnies_succeed. rewrite lookup_alter_eq, IH. simpl. eauto.
    + unfold spinnies_fail. rewrite lookup_alter_eq, IH. simpl. eauto.
Qed.


(** A stream that fails and then ends: the job is rejected, its spinner
    reads succeeded. *)
Example failed_then_ended sp a err :
  promise (downloadVideo [EvError err; EvEnd] sp a) = Rejected err
  /\ spinnies (downloadVideo [EvError err; EvEnd] sp a) !! title a
     = Some {| status := Succeeded; text := finished_message a |}.
Proof.
  split; [reflexivity |].
  unfold downloadVideo, downloadVideo_start. simpl.
  unfold spinnies_succeed, spinnies_fail, spinnies_add.
  by rewrite !lookup_alter_eq, lookup_insert_eq.
Qed.

(** X9.  A download only ever writes the spinner named by its own title:
    the spinners of all other names are what they were before it started. *)
Theorem other_spinners_are_untouched events sp a name :
  name ≠ title a ->
  spinnies (downloadVideo events sp a) !! name = sp !! name.
Proof.
  intros Hne. induction events as [| ev events IH] using rev_ind.
  - unfold downloadVideo, downloadVideo_start, spinnies_add. simpl.
    by rewrite lookup_insert_ne.
  - rewrite downloadVideo_snoc. rewrite <- IH.
    destruct ev as [now | c dl tot now | | err]; simpl.
    + by destruct (response_listener _).
    + unfold spinnies_update. by rewrite lookup_alter_ne.
    + unfold spinnies_succeed. by rewrite lookup_alter_ne.
    + unfold spinnies_fail. by rewrite lookup_alter_ne.
Qed.

Lemma other_spinners_are_untouched_witness :
  spinnies (downloadVideo good_stream
              {[ "Other"%string := {| status := Failed; text := "Failed to download Other" |} ]}
              song)
  !! "Other"%string
  = Some {| status := Failed; text := "Failed to download Other" |}.
Proof.
  rewrite (other_spinners_are_untouched good_stream _ song "Other");
    [apply lookup_singleton_eq | discriminate].
Defined.

Lemma first_response_snoc events ev :
  first_response (events ++ [ev])
  = match first_response events with
    | Some t => Some t
    | None => match ev with EvResponse now => Some now | _ => None end
    end.
Proof.
  unfold first_response. induction events as [| x events IH]; simpl.
  - by destruct ev.
  - destruct x; simpl; auto.
Qed.

(** The ['response'] listener is installed exactly while no response has
    been seen, and [starttime] is the clock reading of the first one. *)
Lemma starttime_and_listener events sp a :
  starttime (downloadVideo events sp a) = first_response events
  /\ response_listener (downloadVideo events sp a)
     = match first_response events with Some _ => false | None => true end.
Proof.
  induction events as [| ev events [IH1 IH2]] using rev_ind; [by split |].
  rewrite downloadVideo_snoc, first_response_snoc.
  destruct ev as [now | c dl tot now | | err]; simpl;
    rewrite ?IH2; destruct (first_response events); simpl; rewrite ?IH1; auto.
Qed.

(** X10.  [starttime] is set once, by the first ['response'] of the stream:
    later responses do not move it, and it is undefined until one
    arrives. *)
Theorem starttime_is_the_first_response events sp a :
  starttime (downloadVideo events sp a) = first_response events.
Proof. apply starttime_and_listener. Qed.

(** X11.  A ['progress'] event that arrives before any ['response'] is
    rendered with the start time undefined: the line it writes into the
    spinner ends with an estimate that reads [NaN]. *)
Theorem progress_before_response_has_no_estimate before c dl tot now sp a :
  first_response before = None ->
  exists st,
    spinnies (downloadVideo (before ++ [EvProgress c dl tot now]) sp a) !! title a
    = Some {| status := st; text := progress_text a dl tot now None |}
    /\ toFixed2 (estimatedDownloadTime (downloadedMinutes now None)
                                       (percent_of dl tot)) = "NaN"%string.
Proof.
  intros Hnone. destruct (spinner_after_events before sp a) as [txt H].
  exists (status_after before). split; [| reflexivity].
  rewrite downloadVideo_snoc. simpl. unfold spinnies_update.
  rewrite lookup_alter_eq, H. simpl.
  by rewrite (proj1 (starttime_and_listener before sp a)), Hnone.
Qed.

Lemma progress_before_response_has_no_estimate_witness :
  exists st,
    spinnies (downloadVideo ([] ++ [EvProgress (of_Z 512) (of_Z 512) (of_Z 1024) 7])
                            ∅ song) !! "Song"%string
    = Some {| status := st;
              text := progress_text song (of_Z 512) (of_Z 1024) 7 None |}
    /\ toFixed2 (estimatedDownloadTime (downloadedMinutes 7 None)
                                       (percent_of (of_Z 512) (of_Z 1024)))
       = "NaN"%string.
Proof.
  apply (progress_before_response_has_no_estimate
           [] (of_Z 512) (of_Z 512) (of_Z 1024) 7 ∅ song).
  reflexivity.
Defined.

Lemma qsign_pos q : (0 < q)%Q -> qsign q = SPos.
Proof.
  intros H. unfold qsign.
  assert ((q ?= 0)%Q = Gt) as -> by (by apply Qgt_alt). reflexivity.
Qed.

Lemma Qred_of_zero q : (q == 0)%Q -> Qred q = 0%Q.
Proof. intros H. by rewrite (Qred_complete _ _ H). Qed.

Lemma Qred_of_one q : (q == 1)%Q -> Qred q = 1%Q.
Proof. intros H. by rewrite (Qred_complete _ _ H). Qed.

(** A finite number of minutes has passed once the response was seen. *)
Lemma downloadedMinutes_finite now t0 :
  exists m, downloadedMinutes now (Some t0) = Fin m.
Proof.
  unfold downloadedMinutes, div, of_Z.
  change (qsign (inject_Z 1000)) with SPos. cbv iota.
  change (qsign (inject_Z 60)) with SPos. cbv iota. eauto.
Qed.

(** X12.  On a tick that reports all bytes of a positive total, after the
    response has been seen, the line reads 100.00 percent and 0.00 minutes
    left, with the same megabytes on both sides. *)
Theorem last_tick_reads_complete a q now t0 :
  (0 < q)%Q ->
  progress_text a (Fin q) (Fin q) now (Some t0)
  = (downloadText a
     ++ ", Completed: 100.00%"
     ++ ", " ++ toFixed2 (megabytes (Fin q))
     ++ "MB of " ++ toFixed2 (megabytes (Fin q)) ++ "MB"
     ++ ", estimated time left: 0.00minutes")%string.
Proof.
  intros Hq. unfold progress_text.
  assert (percent_of (Fin q) (Fin q) = Fin 1) as ->.
  { unfold percent_of, div. rewrite (qsign_pos q Hq). f_equal.
    apply Qred_of_one. field. intros H. rewrite H in Hq. by apply Qlt_irrefl in Hq. }
  destruct (downloadedMinutes_finite now t0) as [m ->].
  assert (estimatedDownloadTime (Fin m) (Fin 1) = Fin 0) as ->.
  { unfold estimatedDownloadTime, sub, div, neg, add.
    change (qsign 1) with SPos. cbv iota. f_equal.
    apply Qred_of_zero. rewrite Qred_correct. field. }
  reflexivity.
Qed.

Lemma last_tick_reads_complete_witness :
  progress_text song (Fin (inject_Z 1048576)) (Fin (inject_Z 1048576)) 90000 (Some 0)
  = "Downloading Song, Completed: 100.00%, 1.00MB of 1.00MB, estimated time left: 0.00minutes"%string.
Proof.
  rewrite (last_tick_reads_complete song (inject_Z 1048576) 90000 0);
    [vm_compute; reflexivity | reflexivity].
Defined.

(* ================================================================== *)
(** * Further properties of [mkDirByPathSync] *)

Lemma fs_extends_refl fs : fs_extends fs fs.
Proof. by repeat split. Qed.

Lemma fs_extends_trans fs1 fs2 fs3 :
  fs_extends fs1 fs2 -> fs_extends fs2 fs3 -> fs_extends fs1 fs3.
Proof.
  intros (H1 & H2 & H3 & H4) (K1 & K2 & K3 & K4).
  repeat split; [set_solver | congruence ..].
Qed.

Lemma exists_any_extends fs1 fs2 p :
  fs_extends fs1 fs2 -> exists_any fs1 p = true -> exists_any fs2 p = true.
Proof.
  intros (H1 & H2 & _ & _). unfold exists_any, exists_dir.
  rewrite !orb_true_iff, !bool_decide_eq_true, H2.
  intros [[H | H] | H]; auto.
Qed.

Lemma mkdirSync_extends fs p : fs_extends fs (fst (mkdirSync fs p)).
Proof.
  unfold mkdirSync. destruct (faults fs !! p); [apply fs_extends_refl |].
  destruct (exists_any fs p); [apply fs_extends_refl |].
  destruct (bool_decide _); [apply fs_extends_refl |].
  destruct (negb _); [apply fs_extends_refl |].
  simpl. repeat split; simpl; auto. set_solver.
Qed.

Lemma mkdir_callback_extends fs targetDir parentDir childDir :
  fs_extends fs (fst (mkdir_callback fs targetDir parentDir childDir)).
Proof.
  rewrite (proj1 (mkdir_callback_cases fs targetDir parentDir childDir)).
  apply mkdirSync_extends.
Qed.

Lemma mkdir_reduce_extends targetDir segs :
  forall fs parentDir, fs_extends fs (fst (mkdir_reduce fs targetDir parentDir segs)).
Proof.
  induction segs as [| childDir rest IH]; intros fs parentDir; simpl;
    [apply fs_extends_refl |].
  pose proof (mkdir_callback_extends fs targetDir parentDir childDir) as H.
  destruct (mkdir_callback fs targetDir parentDir childDir) as [fs1 [curDir | e]];
    simpl in *; [| exact H].
  eapply fs_extends_trans; [exact H | apply IH].
Qed.

(** A step of the walk that did not throw returns the resolved directory. *)
Lemma mkdir_callback_returns fs targetDir parentDir childDir fs' curDir :
  mkdir_callback fs targetDir parentDir childDir = (fs', Ok curDir) ->
  curDir = path_resolve3 (cwd fs) parentDir childDir.
Proof.
  unfold mkdir_callback. destruct (mkdirSync fs _) as [fs1 [err |]].
  - destruct (code_strict_eq (code err) "EEXIST"); [by intros [= _ <-] |].
    destruct (code_strict_eq (code err) "ENOENT"); [discriminate |].
    destruct (_ || _); [discriminate | by intros [= _ <-]].
  - by intros [= _ <-].
Qed.

Lemma mkdir_reduce_returns targetDir segs :
  forall fs parentDir fs' r,
    segs ≠ [] ->
    mkdir_reduce fs targetDir parentDir segs = (fs', Ok r) ->
    r = Some (fold_left resolve_segment segs (default (cwd fs) parentDir)).
Proof.
  induction segs as [| childDir rest IH]; intros fs parentDir fs' r Hne Hred;
    [contradiction |].
  simpl in *.
  destruct (mkdir_callback fs targetDir parentDir childDir) as [fs1 [curDir | e]] eqn:Ecb;
    [| discriminate].
  pose proof (mkdir_callback_returns _ _ _ _ _ _ Ecb) as Hcur.
  unfold path_resolve3 in Hcur. rewrite <- Hcur.
  destruct rest as [| c2 rest'].
  - simpl in *. by injection Hred as _ <-.
  - rewrite (IH fs1 (Some curDir) fs' r ltac:(discriminate) Hred). simpl.
    reflexivity.
Qed.

(** X13.  When [mkDirByPathSync] returns, its value is the resolved target
    directory ([path.resolve(targetDir)]), also for targets with empty,
    ['.'] and ['..'] segments or a trailing separator. *)
Theorem mkDirByPathSync_returns_resolved_target fs targetDir fs' r :
  mkDirByPathSync fs targetDir = (fs', Ok r) ->
  r = Some (path_resolve (cwd fs) targetDir).
Proof.
  unfold mkDirByPathSync. intros H.
  apply mkdir_reduce_returns in H; [| apply split_nonempty].
  rewrite H. unfold path_resolve. by destruct (isAbsolute targetDir).
Qed.

Lemma mkDirByPathSync_returns_resolved_target_witness :
  Some ["home"; "u"; "music"]%string
  = Some (path_resolve (cwd home_fs) "./out/../music/").
Proof.
  apply (mkDirByPathSync_returns_resolved_target home_fs "./out/../music/"
           (fst (mkDirByPathSync home_fs "./out/../music/"))).
  vm_compute. reflexivity.
Defined.

(** A successful step of the walk succeeds again, and changes nothing, on
    any file system that has at least the directories it left. *)
Lemma mkdir_callback_again fs targetDir parentDir childDir fs1 curDir fs2 :
  mkdir_callback fs targetDir parentDir childDir = (fs1, Ok curDir) ->
  fs_extends fs1 fs2 ->
  mkdir_callback fs2 targetDir parentDir childDir = (fs2, Ok curDir).
Proof.
  intros Hcb Hext.
  pose proof (mkdir_callback_extends fs targetDir parentDir childDir) as Hfs.
  rewrite Hcb in Hfs. simpl in Hfs.
  pose proof (fs_extends_trans _ _ _ Hfs Hext) as (_ & Hfiles & Hfaults & Hcwd).
  pose proof (mkdir_callback_returns _ _ _ _ _ _ Hcb) as ->.
  unfold mkdir_callback in *. rewrite Hcwd.
  set (curDir := path_resolve3 (cwd fs) parentDir childDir) in *.
  unfold mkdirSync in *. rewrite Hfaults.
  destruct (faults fs !! curDir) as [c |] eqn:Ef.
  - simpl in *.
    destruct (String.eqb c "EEXIST"); [reflexivity |].
    destruct (String.eqb c "ENOENT"); [discriminate |].
    destruct (_ || _); [discriminate | reflexivity].
  - assert (exists_any fs2 curDir = true) as ->; [| reflexivity].
    destruct (exists_any fs curDir) eqn:Ee.
    + eapply exists_any_extends; [| exact Ee].
      eapply fs_extends_trans; eauto.
    + destruct (bool_decide _); [discriminate Hcb |].
      destruct (negb _); [discriminate Hcb |].
      injection Hcb as <-. eapply exists_any_extends; [exact Hext |].
      unfold exists_any, exists_dir. simpl.
      rewrite orb_true_iff, bool_decide_eq_true. left. right. set_solver.
Qed.

Lemma mkdir_reduce_again targetDir segs :
  forall fs parentDir fs' r fs2,
    mkdir_reduce fs targetDir parentDir segs = (fs', Ok r) ->
    fs_extends fs' fs2 ->
    mkdir_reduce fs2 targetDir parentDir segs = (fs2, Ok r).
Proof.
  induction segs as [| childDir rest IH]; intros fs parentDir fs' r fs2 Hred Hext;
    simpl in *; [by injection Hred as _ <- |].
  destruct (mkdir_callback fs targetDir parentDir childDir) as [fs1 [curDir | e]] eqn:Ecb;
    [| discriminate].
  pose proof (mkdir_reduce_extends targetDir rest fs1 (Some curDir)) as H1.
  rewrite Hred in H1. simpl in H1.
  rewrite (mkdir_callback_again _ _ _ _ _ _ fs2 Ecb (fs_extends_trans _ _ _ H1 Hext)).
  eapply IH; eauto.
Qed.

(** X14.  [mkDirByPathSync] is idempotent: after a call that returned, the
    same call returns the same directory again and changes nothing. *)
Theorem mkDirByPathSync_twice fs targetDir fs' r :
  mkDirByPathSync fs targetDir = (fs', Ok r) ->
  mkDirByPathSync fs' targetDir = (fs', Ok r).
Proof.
  unfold mkDirByPathSync. intros H.
  eapply mkdir_reduce_again; [exact H | apply fs_extends_refl].
Qed.

Lemma mkDirByPathSync_twice_witness :
  mkDirByPathSync (fst (mkDirByPathSync mac_fs "/home/u/out/deep")) "/home/u/out/deep"
  = (fst (mkDirByPathSync mac_fs "/home/u/out/deep"),
     Ok (Some ["home"; "u"; "out"; "deep"]%string)).
Proof.
  apply (mkDirByPathSync_twice mac_fs "/home/u/out/deep").
  vm_compute. reflexivity.
Defined.

(** X15.  [mkDirByPathSync] never removes anything, whether it returns or
    throws: every directory that was there is still there (the directories
    a failed walk has created stay as well), and the files are the same. *)
Theorem mkDirByPathSync_only_adds fs targetDir :
  dirs fs ⊆ dirs (fst (mkDirByPathSync fs targetDir))
  /\ files (fst (mkDirByPathSync fs targetDir)) = files fs
  /\ cwd (fst (mkDirByPathSync fs targetDir)) = cwd fs.
Proof.
  destruct (mkdir_reduce_extends targetDir (split targetDir) fs
              (if isAbsolute targetDir then Some [] else None))
    as (H1 & H2 & _ & H4).
  auto.
Qed.

Lemma exists_dir_root fs : exists_dir fs [] = true.
Proof. unfold exists_dir. apply bool_decide_eq_true. by left. Qed.

(** On a healthy file system every step of the walk from an existing
    directory returns, and leaves a healthy file system in which the
    directory of the step exists. *)
Lemma mkdir_callback_healthy fs targetDir parentDir childDir :
  fs_healthy fs ->
  exists_dir fs (default (cwd fs) parentDir) = true ->
  exists fs',
    mkdir_callback fs targetDir parentDir childDir
    = (fs', Ok (path_resolve3 (cwd fs) parentDir childDir))
    /\ fs_healthy fs' /\ cwd fs' = cwd fs
    /\ exists_dir fs' (path_resolve3 (cwd fs) parentDir childDir) = true.
Proof.
  intros (Hfaults & Hfiles & Hcwd & Hclosed) Hbase.
  unfold mkdir_callback, path_resolve3.
  set (base := default (cwd fs) parentDir) in *.
  set (curDir := resolve_segment base childDir).
  unfold mkdirSync. rewrite Hfaults, lookup_empty.
  assert (forall p, exists_any fs p = exists_dir fs p) as Hany.
  { intros p. unfold exists_any. rewrite Hfiles.
    rewrite (bool_decide_eq_false_2 (p ∈ ∅)) by set_solver. apply orb_false_r. }
  rewrite Hany. destruct (exists_dir fs curDir) eqn:Ecur.
  { exists fs. simpl. repeat split; auto. }
  rewrite Hfiles. rewrite (bool_decide_eq_false_2 (removelast curDir ∈ ∅)) by set_solver.
  assert (curDir = base ++ [childDir]) as Hcur.
  { subst curDir. unfold resolve_segment in *.
    destruct (String.eqb childDir "" || String.eqb childDir "."); [congruence |].
    destruct (String.eqb childDir ".."); [| reflexivity].
    rewrite (Hclosed base Hbase) in Ecur. discriminate. }
  clearbody curDir. subst curDir.
  rewrite removelast_last, Hbase. simpl.
  eexists. split; [reflexivity |].
  assert (forall p, exists_dir fs p = true ->
                    exists_dir {| dirs := {[base ++ [childDir]]} ∪ dirs fs;
                                  files := files fs; faults := faults fs;
                                  cwd := cwd fs |} p = true) as Hmono.
  { intros p. unfold exists_dir. rewrite !bool_decide_eq_true. simpl.
    intros [H | H]; [by left | right; set_solver]. }
  assert (exists_dir {| dirs := {[base ++ [childDir]]} ∪ dirs fs;
                        files := files fs; faults := faults fs;
                        cwd := cwd fs |} (base ++ [childDir]) = true) as Hnew.
  { unfold exists_dir. apply bool_decide_eq_true. simpl. right. set_solver. }
  split; [| split; [reflexivity | exact Hnew]].
  unfold fs_healthy. simpl.
  split; [first [exact Hfaults | reflexivity] |].
  split; [first [exact Hfiles | reflexivity] |]. split; [by apply Hmono |].
  intros p Hp.
  destruct (decide (p = base ++ [childDir])) as [-> | Hne].
  - rewrite removelast_last. by apply Hmono.
  - apply Hmono, Hclosed. revert Hp. unfold exists_dir.
    rewrite !bool_decide_eq_true. simpl. intros [H | H]; [by left | right; set_solver].
Qed.

Lemma mkdir_reduce_healthy targetDir segs :
  forall fs parentDir,
    fs_healthy fs ->
    exists_dir fs (default (cwd fs) parentDir) = true ->
    exists fs' r,
      mkdir_reduce fs targetDir parentDir segs = (fs', Ok r)
      /\ fs_healthy fs' /\ cwd fs' = cwd fs
      /\ exists_dir fs' (fold_left resolve_segment segs (default (cwd fs) parentDir))
         = true.
Proof.
  induction segs as [| childDir rest IH]; intros fs parentDir Hh Hbase; simpl.
  - exists fs, parentDir. auto.
  - destruct (mkdir_callback_healthy fs targetDir parentDir childDir Hh Hbase)
      as (fs1 & -> & Hh1 & Hcwd1 & Hex1).
    destruct (IH fs1 (Some (path_resolve3 (cwd fs) parentDir childDir)) Hh1 Hex1)
      as (fs' & r & -> & Hh' & Hcwd' & Hex').
    exists fs', r. split; [reflexivity |]. split; [exact Hh' |].
    split; [by rewrite Hcwd' |]. exact Hex'.
Qed.

(** X16.  On a file system without permission problems and without plain
    files, whose working directory exists, [mkDirByPathSync] works like
    [mkdir -p]: for every target it returns the resolved target, having
    created the missing directories on the way, and the target exists
    afterwards. *)
Theorem mkDirByPathSync_creates_the_whole_path fs targetDir :
  fs_healthy fs ->
  exists fs',
    mkDirByPathSync fs targetDir
    = (fs', Ok (Some (path_resolve (cwd fs) targetDir)))
    /\ exists_dir fs' (path_resolve (cwd fs) targetDir) = true
    /\ fs_healthy fs'.
Proof.
  intros Hh. unfold mkDirByPathSync.
  destruct (mkdir_reduce_healthy targetDir (split targetDir) fs
              (if isAbsolute targetDir then Some [] else None) Hh)
    as (fs' & r & Hred & Hh' & _ & Hex).
  { destruct (isAbsolute targetDir); simpl; [apply exists_dir_root | apply Hh]. }
  exists fs'.
  pose proof (mkdir_reduce_returns _ _ _ _ _ _ (split_nonempty targetDir) Hred)
    as Hr.
  subst r. unfold path_resolve.
  split; [| split; [| exact Hh']].
  - etransitivity; [exact Hred |]. by destruct (isAbsolute targetDir).
  - by destruct (isAbsolute targetDir).
Qed.

Lemma home_fs_healthy : fs_healthy home_fs.
Proof.
  split; [reflexivity |]. split; [reflexivity |]. split.
  - unfold exists_dir. apply bool_decide_eq_true. right. simpl. set_solver.
  - intros p. unfold exists_dir. rewrite !bool_decide_eq_true. simpl.
    intros [-> | H]; [by left |].
    apply elem_of_union in H as [H | H]; apply elem_of_singleton in H as ->; simpl.
    + by left.
    + right. set_solver.
Qed.

Lemma mkDirByPathSync_creates_the_whole_path_witness :
  exists fs',
    mkDirByPathSync home_fs "a/b/c"
    = (fs', Ok (Some (path_resolve (cwd home_fs) "a/b/c")))
    /\ exists_dir fs' (path_resolve (cwd home_fs) "a/b/c") = true
    /\ fs_healthy fs'.
Proof.
  exact (mkDirByPathSync_creates_the_whole_path home_fs "a/b/c" home_fs_healthy).
Defined.

(* ================================================================== *)
(** * Further properties of the first script's downloader *)

Lemma rev1_run_promise a events :
  forall d,
    promise (fst (Rev1.run a d events))
    = match promise d with
      | Pending =>
          match List.find terminal events with
          | Some EvEnd => Fulfilled (finished_message a)
          | _ => Pending
          end
      | p => p
      end.
Proof.
  induction events as [| ev rest IH]; intros d; simpl.
  - by destruct (promise d).
  - destruct ev; simpl.
    + rewrite IH. by destruct (response_listener d).
    + by rewrite IH.
    + rewrite IH. simpl. by destruct (promise d).
    + by destruct (promise d).
Qed.

(** X17.  The downloader of the first script never rejects: whatever its
    stream emits, its promise is fulfilled when an ['end'] comes before any
    ['error'], and stays pending otherwise. *)
Theorem rev1_downloadVideo_never_rejects events sp a :
  promise (fst (Rev1.downloadVideo events sp a))
  = match List.find terminal events with
    | Some EvEnd => Fulfilled (finished_message a)
    | _ => Pending
    end
  /\ forall e, promise (fst (Rev1.downloadVideo events sp a)) <> Rejected e.
Proof.
  assert (promise (fst (Rev1.downloadVideo events sp a))
          = match List.find terminal events with
            | Some EvEnd => Fulfilled (finished_message a)
            | _ => Pending
            end) as H.
  { unfold Rev1.downloadVideo. by rewrite rev1_run_promise. }
  split; [exact H |].
  intros e. rewrite H. by destruct (List.find terminal events) as [[] |].
Qed.

(* ================================================================== *)
(** * Further properties of the [catch] block *)

(** When the [catch] block ends the process, the status is 1. *)
Lemma main_catch_exit w fs cm error :
  exited (main_catch w fs cm error) = true ->
  exit_code (main_catch w fs cm error) = 1.
Proof.
  unfold main_catch, single_video_failed.
  destruct (code_loose_eq _ _); [| discriminate].
  destruct (getBasicInfo w (link cm)); [| reflexivity].
  destruct (mkDirByPathSync fs (output cm)) as [fs' [r | e]]; [| reflexivity].
  destruct (job_outcome w _); simpl; try discriminate; reflexivity.
Qed.

(** X18.  The [catch] block ends the process only from inside the
    single-video fallback, only with status 1, and only right after it has
    printed the error of the step of the fallback that failed: the lookup of
    the video, the creation of the output directory or the download. *)
Theorem catch_exits_only_from_failed_fallback w fs cm error :
  exited (main_catch w fs cm error) = false
  \/ (code_loose_eq (code error) 404 = true
      /\ exit_code (main_catch w fs cm error) = 1
      /\ exists pre e,
          main_catch w fs cm error = pre ++ single_video_failed e
          /\ exited pre = false
          /\ (getBasicInfo w (link cm) = Fail e
              \/ snd (mkDirByPathSync fs (output cm)) = Fail e
              \/ exists a, Direct a ∈ pre /\ job_outcome w a = Rejected e)).
Proof.
  destruct (exited (main_catch w fs cm error)) eqn:Hex; [right | by left].
  pose proof (main_catch_exit _ _ _ _ Hex) as Hcode.
  split; [| split; [exact Hcode |]].
  { unfold main_catch in Hex. by destruct (code_loose_eq _ _). }
  clear Hcode. revert Hex. unfold main_catch.
  destruct (code_loose_eq _ _); [| discriminate].
  destruct (getBasicInfo w (link cm)) as [info | e] eqn:Einfo.
  - destruct (mkDirByPathSync fs (output cm)) as [fs' [r | e]] eqn:Emk.
    + destruct (job_outcome w _) as [| v | e] eqn:Ejob; try discriminate.
      intros _. eexists [_; _; _; _], e. split; [reflexivity |].
      split; [reflexivity |]. right. right. eexists. split; [| exact Ejob].
      do 3 (apply elem_of_cons; right). apply elem_of_cons. by left.
    + intros _. eexists [_; _; _], e. split; [reflexivity |].
      split; [reflexivity |]. right. by left.
  - intros _. eexists [_; _], e. split; [reflexivity |].
    split; [reflexivity |]. by left.
Qed.

(* ================================================================== *)
(** * Further properties of the batch *)

Section Console.

Variables (w : World) (slots : Slots) (jobs : list DownloadArgs).
Variables (handler : Err -> list Effect) (log : list Effect).

(** What [main] has printed, at every turn of the batch: nothing while it
    waits; the summary once the last job is fulfilled; the output of the
    [catch] block for the first rejection. *)
Lemma run_console st :
  rtc (step w slots jobs handler) (batch_init log (length jobs)) st ->
  (awaiting st = true /\ result st = None /\ console st = log
   /\ forall j o, (j, o) ∈ outcomes st -> exists v, o = Fulfilled v)
  \/ (awaiting st = false
      /\ result st = Some (values_in_order (length jobs) (outcomes st))
      /\ console st
         = log ++ finished (values_in_order (length jobs) (outcomes st))
      /\ length (outcomes st) = length jobs
      /\ forall j o, (j, o) ∈ outcomes st -> exists v, o = Fulfilled v)
  \/ (awaiting st = false /\ result st = None
      /\ exists j e, (j, Rejected e) ∈ outcomes st
                     /\ console st = log ++ handler e).
Proof.
  revert st.
  apply (run_invariant w slots jobs handler log
           (fun st =>
              (awaiting st = true /\ result st = None /\ console st = log
               /\ forall j o, (j, o) ∈ outcomes st -> exists v, o = Fulfilled v)
              \/ (awaiting st = false
                  /\ result st = Some (values_in_order (length jobs) (outcomes st))
                  /\ console st
                     = log ++ finished (values_in_order (length jobs) (outcomes st))
                  /\ length (outcomes st) = length jobs
                  /\ forall j o, (j, o) ∈ outcomes st -> exists v, o = Fulfilled v)
              \/ (awaiting st = false /\ result st = None
                  /\ exists j e, (j, Rejected e) ∈ outcomes st
                                 /\ console st = log ++ handler e))).
  - unfold batch_init. destruct (length jobs) eqn:En; simpl.
    + right. left. repeat split. intros j o H. by apply elem_of_nil in H.
    + left. repeat split. intros j o H. by apply elem_of_nil in H.
  - intros st st' _ IH Hstep.
    destruct Hstep as [st j q _ _ _ | st j a Hex _ _ Hset]; [exact IH |].
    destruct IH as [(Haw & Hres & Hcon & Hful)
                   | [(Haw & Hres & Hcon & Hlen & Hful)
                     | (Haw & Hres & i & e & Hi & Hcon)]].
    + unfold on_settle. rewrite Haw.
      destruct (job_outcome w a) as [| v | e] eqn:Eo; [discriminate | |].
      * assert (forall j' o, (j', o) ∈ outcomes st ++ [(j, Fulfilled v)] ->
                             exists v', o = Fulfilled v') as Hful'.
        { intros j' o H. apply elem_of_app in H as [H | H]; [by eapply Hful |].
          apply list_elem_of_singleton in H. injection H as -> ->. eauto. }
        destruct (Nat.eqb _ _) eqn:En; simpl.
        -- right. left. apply Nat.eqb_eq in En. rewrite Hcon. auto.
        -- left. auto.
      * right. right. simpl. split; [reflexivity |]. split; [reflexivity |].
        exists j, e. rewrite Hcon. split; [| reflexivity].
        apply elem_of_app. right. by apply list_elem_of_singleton.
    + rewrite Hcon, exited_app in Hex. simpl in Hex.
      rewrite orb_true_r in Hex. discriminate.
    + unfold on_settle. rewrite Haw. simpl. right. right.
      split; [reflexivity |]. split; [exact Hres |].
      exists i, e. split; [| exact Hcon]. apply elem_of_app. by left.
Qed.

(** When every job has settled and all are fulfilled, the values read in
    the order of the schedule are the messages of the jobs. *)
Lemma values_of_fulfilled os :
  (forall j, (j < length jobs)%nat -> j ∈ os.*1) ->
  (forall j o, (j, o) ∈ os -> exists a, jobs !! j = Some a /\ o = job_outcome w a) ->
  (forall j o, (j, o) ∈ os -> exists v, o = Fulfilled v) ->
  values_in_order (length jobs) os = map finished_message jobs.
Proof.
  intros Hall Hown Hful. apply list_eq. intros j. unfold values_in_order.
  change (map finished_message jobs) with (finished_message <$> jobs).
  match goal with
  | |- map ?f ?l !! _ = _ => change (map f l) with (f <$> l)
  end.
  rewrite !list_lookup_fmap.
  destruct (decide (j < length jobs)%nat) as [Hj | Hj].
  - rewrite lookup_seq_lt by exact Hj. simpl.
    destruct (lookup_lt_is_Some_2 jobs j Hj) as [a Ha]. rewrite Ha. simpl.
    f_equal.
    destruct (list_find (fun o => o.1 = j) os) as [[i [j' p]] |] eqn:E.
    + apply list_find_Some in E as (Hi & Hj' & _). simpl in Hj'. subst j'.
      apply list_elem_of_lookup_2 in Hi.
      destruct (Hown _ _ Hi) as (a' & Ha' & ->).
      destruct (Hful _ _ Hi) as (v & Hv).
      assert (a' = a) as -> by congruence.
      rewrite Hv. simpl. rewrite job_outcome_events in Hv.
      unfold outcome_of_events in Hv.
      destruct (List.find terminal _) as [[] |]; try discriminate.
      by injection Hv as <-.
    + apply list_find_None in E. specialize (Hall j Hj).
      apply list_elem_of_fmap in Hall as ([j' p] & -> & Hin).
      rewrite Forall_forall in E. by destruct (E _ Hin).
  - rewrite lookup_seq_ge by lia. rewrite lookup_ge_None_2 by lia. reflexivity.
Qed.

(** A batch whose jobs have all settled has no job waiting or running. *)
Lemma settled_jobs_cover st :
  accounted (length jobs) st ->
  length (outcomes st) = length jobs ->
  forall j, (j < length jobs)%nat -> j ∈ (outcomes st).*1.
Proof.
  unfold accounted. intros Hacc Hlen j Hj.
  pose proof (Permutation_length Hacc) as Hl.
  rewrite !length_app, length_fmap, length_seq in Hl.
  destruct (queue st); [| simpl in Hl; lia].
  destruct (active st); [| simpl in Hl; lia].
  simpl in Hacc. rewrite Hacc. apply elem_of_seq. lia.
Qed.

End Console.

Lemma try_two_good :
  main_try (playlist_world two_playlist) home_fs cm_two_slots
  = Awaiting home_fs log_two (Bounded 2) [job "A"; job "B"].
Proof. vm_compute. reflexivity. Qed.

Lemma both_done_reachable :
  reachable (playlist_world two_playlist) home_fs cm_two_slots both_done.
Proof.
  unfold reachable, main_init, main_step. rewrite try_two_good.
  eexists. split; [reflexivity |].
  eapply rtc_l; [apply (step_start _ _ _ _ _ 0%nat [1%nat]); reflexivity |].
  eapply rtc_l; [apply (step_start _ _ _ _ _ 1%nat []); reflexivity |].
  eapply rtc_l.
  { apply (step_settle _ _ _ _ _ 1%nat (job "B")); [reflexivity | | reflexivity ..].
    simpl. apply elem_of_cons. right. apply elem_of_cons. by left. }
  eapply rtc_l.
  { apply (step_settle _ _ _ _ _ 0%nat (job "A")); [reflexivity | | reflexivity ..].
    simpl. apply elem_of_cons. by left. }
  apply rtc_refl.
Defined.

(** X19.  With the limiter as the spec describes it: a run of the batch
    that has ended through [process.exit(0)] has downloaded every scheduled
    item.  Every job was fulfilled with its own message, the array the
    aggregate wait returned lists these messages in the order of the
    schedule, whatever the order in which the jobs finished, and the summary
    with their number is the last thing printed. *)
Theorem exit_0_means_every_job_succeeded w fs cm st :
  reachable w fs cm st ->
  exited (console st) = true ->
  exit_code (console st) = 0 ->
  result st = Some (map finished_message (submitted (main_try w fs cm)))
  /\ (forall a, a ∈ submitted (main_try w fs cm) ->
                job_outcome w a = Fulfilled (finished_message a))
  /\ exists log,
      console st
      = log ++ [ConsoleLog ("Finished downloading "
                            ++ string_of_nat (length (submitted (main_try w fs cm)))
                            ++ " videos.");
                ProcessExit 0].
Proof.
  intros Hreach Hex Hcode.
  destruct (reachable_run _ _ _ _ Hreach) as (fs' & log & slots & jobs & Htry & Hrun).
  rewrite Htry. simpl.
  destruct (main_try_awaiting _ _ _ _ _ _ _ Htry)
    as (p & dir & r & _ & _ & _ & _ & _ & Hlog).
  pose proof (run_accounted _ _ _ _ _ _ Hrun) as Hacc.
  pose proof (run_own_outcomes _ _ _ _ _ _ Hrun) as Hown.
  destruct (run_console _ _ _ _ _ _ Hrun)
    as [(_ & _ & Hcon & _)
       | [(_ & Hres & Hcon & Hlen & Hful) | (_ & _ & j & e & _ & Hcon)]].
  - rewrite Hcon, Hlog in Hex. discriminate.
  - pose proof (settled_jobs_cover _ _ Hacc Hlen) as Hall.
    pose proof (values_of_fulfilled w jobs (outcomes st) Hall Hown Hful) as Hval.
    rewrite Hval in Hres, Hcon. split; [exact Hres |]. split.
    + intros a Ha. apply list_elem_of_lookup_1 in Ha as [j Hj].
      pose proof (lookup_lt_Some _ _ _ Hj) as Hlt.
      specialize (Hall j Hlt).
      apply list_elem_of_fmap in Hall as ([j' o] & -> & Hin). simpl in Hj.
      destruct (Hown _ _ Hin) as (a' & Ha' & ->).
      destruct (Hful _ _ Hin) as (v & Hv).
      assert (a' = a) as -> by congruence.
      rewrite Hv. f_equal. rewrite job_outcome_events in Hv.
      unfold outcome_of_events in Hv.
      destruct (List.find terminal _) as [[] |]; try discriminate.
      by injection Hv as <-.
    + exists log. rewrite Hcon. unfold finished. by rewrite length_map.
  - rewrite Hcon in Hex, Hcode. rewrite exited_app, Hlog in Hex. simpl in Hex.
    rewrite exit_code_app in Hcode by exact Hlog.
    rewrite (main_catch_exit _ _ _ _ Hex) in Hcode. discriminate.
Qed.

Lemma exit_0_means_every_job_succeeded_witness :
  result both_done
  = Some (map finished_message
              (submitted (main_try (playlist_world two_playlist) home_fs
                                   cm_two_slots)))
  /\ (forall a, a ∈ submitted (main_try (playlist_world two_playlist) home_fs
                                        cm_two_slots) ->
                job_outcome (playlist_world two_playlist) a
                = Fulfilled (finished_message a))
  /\ exists log,
      console both_done
      = log ++ [ConsoleLog ("Finished downloading "
                            ++ string_of_nat
                                 (length (submitted
                                            (main_try (playlist_world two_playlist)
                                                      home_fs cm_two_slots)))
                            ++ " videos.");
                ProcessExit 0].
Proof.
  apply (exit_0_means_every_job_succeeded (playlist_world two_playlist) home_fs
           cm_two_slots both_done both_done_reachable); reflexivity.
Defined.

(** X20.  With the limiter as the spec describes it: when the aggregate
    wait of a batch has failed, the [catch] block of [main] has run on the
    rejection of one of the jobs, and nothing else has been printed since
    the jobs were scheduled.  An error of a download whose code is 404 is so
    taken for a playlist that was not found: the playlist link itself is
    looked up as a single video.  Any other error is only printed. *)
Theorem failed_batch_runs_the_catch_block w fs cm fs' log slots jobs st :
  main_try w fs cm = Awaiting fs' log slots jobs ->
  reachable w fs cm st ->
  awaiting st = false ->
  result st = None ->
  exists j a e,
    jobs !! j = Some a
    /\ job_outcome w a = Rejected e
    /\ (j, Rejected e) ∈ outcomes st
    /\ console st = log ++ main_catch w fs' cm e
    /\ (code_loose_eq (code e) 404 = true -> GetBasicInfo (link cm) ∈ console st)
    /\ (code_loose_eq (code e) 404 = false ->
        console st = log ++ [ConsoleError "Error: " e]).
Proof.
  intros Htry Hreach Haw Hres.
  destruct (reachable_run _ _ _ _ Hreach)
    as (fs1 & log1 & slots1 & jobs1 & Htry1 & Hrun).
  rewrite Htry in Htry1. injection Htry1 as <- <- <- <-.
  pose proof (run_own_outcomes _ _ _ _ _ _ Hrun) as Hown.
  destruct (run_console _ _ _ _ _ _ Hrun)
    as [(Haw' & _) | [(_ & Hres' & _) | (_ & _ & j & e & Hin & Hcon)]];
    [congruence | congruence |].
  destruct (Hown _ _ Hin) as (a & Ha & Ho).
  exists j, a, e. split; [exact Ha |]. split; [by rewrite <- Ho |].
  split; [exact Hin |]. split; [exact Hcon |]. split.
  - intros H404. rewrite Hcon. apply elem_of_app. right.
    unfold main_catch. rewrite H404.
    apply elem_of_cons. right. apply elem_of_cons. by left.
  - intros Hother. by rewrite Hcon, main_catch_other.
Qed.

Lemma failed_batch_runs_the_catch_block_witness :
  exists j a e,
    [job "A"; job "B"] !! j = Some a
    /\ job_outcome (flaky_world two_playlist) a = Rejected e
    /\ (j, Rejected e) ∈ outcomes after_failure_of_B
    /\ console after_failure_of_B
       = log_two ++ main_catch (flaky_world two_playlist) home_fs cm_two_slots e
    /\ (code_loose_eq (code e) 404 = true ->
        GetBasicInfo (link cm_two_slots) ∈ console after_failure_of_B)
    /\ (code_loose_eq (code e) 404 = false ->
        console after_failure_of_B = log_two ++ [ConsoleError "Error: " e]).
Proof.
  apply (failed_batch_runs_the_catch_block (flaky_world two_playlist) home_fs
           cm_two_slots home_fs log_two (Bounded 2) [job "A"; job "B"]
           after_failure_of_B try_two_flaky after_failure_of_B_reachable);
    reflexivity.
Defined.
